(** * Apex kernel, sys/fs/syscalls.cpp: file-system system-call wrappers

    A shallow embedding of the user/kernel boundary layer found in
    [sys/fs/syscalls.cpp]: the scatter/gather engine [do_iov] and the [sc_*]
    wrappers that validate user pointers under the address-space guard
    before they call into the file system.

    Layout of the development:
    - machine integers ([int], [size_t], [ssize_t], [off_t]) as [Z] with the
      wrap-around written out;
    - the collaborators that live outside this file (guard, validator,
      file-system routines, user memory) as a record of oracles;
    - a small state-and-trace monad in which every wrapper is written the
      way the C++ reads;
    - the properties of the wrappers. *)

From Stdlib Require Import ZArith List Lia Bool.
Import ListNotations.
Open Scope Z_scope.

Set Implicit Arguments.

(** ** Machine integers *)

(** The file is compiled for two pointer widths; the source selects between
    them with [#if UINTPTR_MAX == 0xffffffff]. *)
Inductive arch : Type := ILP32 | LP64.

Definition word_bits (a : arch) : Z :=
  match a with ILP32 => 32 | LP64 => 64 end.

(** Two's complement reading of the low [w] bits of [z]. *)
Definition to_signed (w z : Z) : Z := (z + 2 ^ (w - 1)) mod 2 ^ w - 2 ^ (w - 1).

(** Unsigned reading of the low [w] bits of [z]. *)
Definition to_unsigned (w z : Z) : Z := z mod 2 ^ w.

Definition to_int (z : Z) : Z := to_signed 32 z.
Definition to_off_t (z : Z) : Z := to_signed 64 z.
Definition to_size_t (a : arch) (z : Z) : Z := to_unsigned (word_bits a) z.
Definition to_ssize_t (a : arch) (z : Z) : Z := to_signed (word_bits a) z.

Definition SSIZE_MAX (a : arch) : Z := 2 ^ (word_bits a - 1) - 1.

(** ** Constants of the C library headers

    [errno.h], [limits.h], [sys/mman.h] and [fcntl.h] live outside this
    file; the values are those of the Linux ABI (musl) that the kernel is
    built against. *)
Definition EPERM : Z := 1.
Definition EINTR : Z := 4.
Definition EBADF : Z := 9.
Definition EFAULT : Z := 14.
Definition EINVAL : Z := 22.

Definition IOV_MAX : Z := 1024.
Definition PATH_MAX : Z := 4096.
Definition PROT_READ : Z := 1.
Definition PROT_WRITE : Z := 2.
Definition AT_FDCWD : Z := -100.
Definition AT_SYMLINK_NOFOLLOW : Z := 256.

(** Modelled from the spec: the macro [DERR] of debug.h.  It traces the
    error in debug builds; the value of [DERR(e)] is the error code [e]. *)
Definition DERR (e : Z) : Z := e.

(** What the remaining headers fix and this file only uses: structure sizes,
    [fcntl] commands, the [ioctl] request encoding and the capability
    number. *)
Record headers : Type := {
  sizeof_stat : Z;
  sizeof_statfs : Z;
  sizeof_flock : Z;
  sizeof_timespec : Z;
  F_GETLK : Z;
  F_SETLK : Z;
  F_SETLKW : Z;
  _IOC_READ : Z;
  _IOC_WRITE : Z;
  _IOC_DIR : Z -> Z;
  _IOC_SIZE : Z -> Z;
  CAP_ADMIN : Z
}.

(** ** Data *)

(** [struct iovec]: a user pointer and a [size_t] length. *)
Record iovec : Type := { iov_base : Z; iov_len : Z }.

Definition sizeof_iovec (a : arch) : Z := 2 * (word_bits a / 8).
Definition sizeof_int : Z := 4.
Definition sizeof_off_t : Z := 8.

(** The routines the wrappers call through to. *)
Inductive opname : Type :=
| Chdir | Faccessat | Fchmodat | Fchownat | Fcntl | Fstat | Fstatat | Fstatfs
| Getcwd | Getdents | Ioctl | Lseek | Mkdirat | Mknodat | Mount | Openat
| Pipe2 | Renameat | Rmdir | Stat | Statfs | Symlinkat | Umount2 | Unlinkat
| Utimensat | Pread | Pwrite | Write_ | Readlinkat.

(** Everything a wrapper does that is visible from outside, in order. *)
Inductive event : Type :=
| EvAcquire                                   (* guard taken *)
| EvRelease                                   (* guard given back *)
| EvAccessOk (p len prot : Z) (ok : bool)     (* u_access_ok *)
| EvStrcheck (p max : Z) (ok : bool)          (* u_strcheck *)
| EvAddress (p : Z) (ok : bool)               (* u_address *)
| EvCall (op : opname) (args : list Z) (r : Z)
| EvXfer (fd : Z) (iov : list iovec) (off r : Z)  (* fn(fd, iov, d, offset) *)
| EvStore (p v : Z).                          (* store through a user pointer *)

(** How a call ends.  [AssertFailed] is a failed [assert]; [OutOfFuel] only
    exists because the [while (1)] loop is unrolled a bounded number of
    times, and is shown below never to be produced. *)
Inductive exit : Type :=
| Ret (v : Z)
| AssertFailed
| OutOfFuel.

Inductive step (A B : Type) : Type :=
| Break (a : A)
| Continue (b : B).
Arguments Break {A B} a.
Arguments Continue {A B} b.

(** ** The collaborators *)

Section Kernel.

(** [W] is the state of everything behind the wrappers: files, drivers, the
    scheduler. *)
Variable W : Type.

(** A positioned vectored transfer: [preadv] or [pwritev]. *)
Definition xfer_fn : Type := Z -> list iovec -> Z -> W -> Z * W.

Record kernel : Type := {
  (* result of an interruptible acquisition of u_access_lock: negative when
     a signal is pending *)
  k_lock : W -> Z;
  k_access_ok : Z -> Z -> Z -> bool;
  k_strcheck : Z -> Z -> bool;
  k_address : Z -> bool;
  k_capable : Z -> bool;
  k_op : opname -> list Z -> W -> Z * W;
  k_preadv : xfer_fn;
  k_pwritev : xfer_fn;
  (* the iovec stored at a user address *)
  k_iovec_at : Z -> iovec;
  (* whether assert() is compiled in *)
  k_asserts : bool
}.

Variable a : arch.
Variable hdr : headers.
Variable K : kernel.

(** ** State and trace *)

Record kstate : Type := {
  world : W;
  held : nat            (* acquisitions of the guard not yet released *)
}.

Record outcome (A : Type) : Type := Out {
  value : A;
  final : kstate;
  trace : list event
}.

Definition M (A : Type) : Type := kstate -> outcome A.

Definition ret {A : Type} (x : A) : M A := fun s => Out x s [].

Definition bind {A B : Type} (m : M A) (f : A -> M B) : M B :=
  fun s =>
    let o := m s in
    let o' := f (value o) (final o) in
    Out (value o') (final o') (trace o ++ trace o').

Notation "x <- m ;; k" := (bind m (fun x => k))
  (at level 61, m at next level, right associativity).
Notation "m ;;; k" := (bind m (fun _ => k))
  (at level 61, right associativity).

Definition emit (e : event) : M unit := fun s => Out tt s [e].

(** ** Guard (access.h) *)

(** Modelled from the spec: acquiring [u_access_lock], the operation behind
    [interruptible_lock::lock] and [u_access_begin] of access.h.  It blocks
    unless an interruption is pending, in which case it yields a negative
    code and the guard is not held. *)
Definition acquire : M Z :=
  fun s =>
    let r := k_lock K (world s) in
    if r <? 0 then Out r s []
    else Out r {| world := world s; held := S (held s) |} [EvAcquire].

(** Modelled from the spec: giving the guard back, the operation behind the
    destructor of [interruptible_lock] and [u_access_end]. *)
Definition release : M unit :=
  fun s => Out tt {| world := world s; held := Nat.pred (held s) |} [EvRelease].

(** Modelled from the spec: the explicit pin and unpin of the address space
    used around opaque [ioctl]/[fcntl] payloads. *)
Definition u_access_begin : M Z := acquire.
Definition u_access_end : M unit := release.

(** Modelled from the spec: the scoped lock of access.h, as the wrappers use
    it.  [interruptible_lock l(u_access_lock); if (auto r = l.lock(); r < 0)
    return r; body]: release is automatic and unconditional on scope exit
    once the lock is held. *)
Definition interruptible_lock {A : Type} (inj : Z -> A) (body : M A) : M A :=
  r <- acquire ;;
  if r <? 0 then ret (inj r)
  else v <- body ;; release ;;; ret v.

(** ** Validator (access.h) and capability check (task.h) *)
Definition u_access_ok (p len prot : Z) : M bool :=
  fun s => let ok := k_access_ok K p len prot in Out ok s [EvAccessOk p len prot ok].

Definition u_strcheck (p max : Z) : M bool :=
  fun s => let ok := k_strcheck K p max in Out ok s [EvStrcheck p max ok].

Definition u_address (p : Z) : M bool :=
  fun s => let ok := k_address K p in Out ok s [EvAddress p ok].

Definition task_capable (cap : Z) : bool := k_capable K cap.

(** A call into the file system proper. *)
Definition call (op : opname) (args : list Z) : M Z :=
  fun s =>
    let (r, w') := k_op K op args (world s) in
    Out r {| world := w'; held := held s |} [EvCall op args r].

(** [fn(fd, iov.data(), d, offset)] *)
Definition call_fn (fn : xfer_fn) (fd : Z) (iov : list iovec) (off : Z) : M Z :=
  fun s =>
    let (r, w') := fn fd iov off (world s) in
    Out r {| world := w'; held := held s |} [EvXfer fd iov off r].

Definition store (p v : Z) : M unit := emit (EvStore p v).

(** ** do_iov *)

(** [uiov[0] .. uiov[c-1]] as read from user memory; both fields of an entry
    are unsigned words. *)
Definition read_iovec (p : Z) : iovec :=
  let e := k_iovec_at K p in
  {| iov_base := to_size_t a (iov_base e); iov_len := to_size_t a (iov_len e) |}.

Definition user_iovs (uiov : Z) (c : Z) : list iovec :=
  map (fun i => read_iovec (uiov + Z.of_nat i * sizeof_iovec a))
      (seq 0 (Z.to_nat c)).

(** The [for] loop of a batch: null entries are skipped, the others are
    validated and appended to the local array [iov]; [l] sums their lengths
    in an [ssize_t].  [None] is the [return DERR(-EFAULT)]. *)
Fixpoint gather (prot : Z) (ents : list iovec) (iov : list iovec) (l : Z)
  : M (option (list iovec * Z)) :=
  match ents with
  | [] => ret (Some (iov, l))
  | e :: rest =>
      if iov_base e =? 0 then gather prot rest iov l
      else
        ok <- u_access_ok (iov_base e) (iov_len e) prot ;;
        if negb ok then ret None
        else gather prot rest (iov ++ [e]) (to_ssize_t a (l + iov_len e))
  end.

(** The variables the [while (1)] loop carries from one batch to the next. *)
Record iov_loop : Type := {
  uiov : Z;
  count : Z;
  offset : Z;
  total : Z            (* [ret] in the source *)
}.

Definition batch_size : Z := 16.

(** What a turn does with the result [r] of the primitive, [c] entries
    having been looked at and [l] bytes asked for: the statements of the loop
    body that follow the call of [fn]. *)
Definition after_transfer (st : iov_loop) (c l r : Z) : step exit iov_loop :=
  if r =? 0 then Break (Ret (total st))
  else if r <? 0 then
    (if negb (total st =? 0) then Break (Ret (total st)) else Break (Ret r))
  else
    let total' := to_ssize_t a (total st + r) in
    if r <? l then Break (Ret total')
    else if k_asserts K && negb (r =? l) then Break AssertFailed
    else
      let count' := to_int (to_size_t a (to_size_t a (count st) - c)) in
      if count' =? 0 then Break (Ret total')
      else
        Continue
          {| uiov := uiov st + c * sizeof_iovec a;
             count := count';
             offset := if 0 <=? offset st
                       then to_off_t (offset st + r)
                       else offset st;
             total := total' |}.

(** One turn of the [while (1)] loop. *)
Definition do_iov_body (fd : Z) (fn : xfer_fn) (prot : Z) (st : iov_loop)
  : M (step exit iov_loop) :=
  let c := Z.min (to_size_t a (count st)) batch_size in
  g <- gather prot (user_iovs (uiov st) c) [] 0 ;;
  match g with
  | None => ret (Break (Ret (DERR (- EFAULT))))
  | Some (iov, l) =>
      r <- call_fn fn fd iov (offset st) ;;
      ret (after_transfer st c l r)
  end.

Fixpoint do_iov_loop (fuel : nat) (fd : Z) (fn : xfer_fn) (prot : Z)
  (st : iov_loop) : M exit :=
  match fuel with
  | O => ret OutOfFuel
  | S fuel' =>
      b <- do_iov_body fd fn prot st ;;
      match b with
      | Break e => ret e
      | Continue st' => do_iov_loop fuel' fd fn prot st'
      end
  end.

(** Turns that are always enough: every turn that goes on consumes at least
    one of the [count] entries. *)
Definition iov_fuel (count : Z) : nat := S (Z.to_nat count).

Definition do_iov (fd uiov count offset : Z) (fn : xfer_fn) (prot : Z) : M exit :=
  if (count <? 0) || (count >? IOV_MAX) then ret (Ret (DERR (- EINVAL)))
  else
    interruptible_lock Ret (
      ok <- u_access_ok uiov (to_size_t a (sizeof_iovec a * to_size_t a count)) PROT_READ ;;
      if negb ok then ret (Ret (DERR (- EFAULT)))
      else
        do_iov_loop (iov_fuel count) fd fn prot
          {| uiov := uiov; count := count; offset := offset; total := 0 |}).

(** ** The wrappers *)

(** [!c1 || !c2 || ...]: evaluation stops at the first check that fails. *)
Fixpoint all_ok (cs : list (M bool)) : M bool :=
  match cs with
  | [] => ret true
  | c :: cs' => ok <- c ;; if ok then all_ok cs' else ret false
  end.

(** [(off_t)off0 << 32 | off1] *)
Definition off_t_of_halves (off0 off1 : Z) : Z :=
  Z.lor (to_off_t (Z.shiftl off0 32)) off1.

Definition locked (body : M Z) : M Z := interruptible_lock (fun r => r) body.

Definition sc_faccessat (dirfd path mode flags : Z) : M Z :=
  locked (
    ok <- u_strcheck path PATH_MAX ;;
    if negb ok then ret (DERR (- EFAULT))
    else call Faccessat [dirfd; path; mode; flags]).

Definition sc_access (path mode : Z) : M Z :=
  sc_faccessat AT_FDCWD path mode 0.

Definition sc_chdir (path : Z) : M Z :=
  locked (
    ok <- u_strcheck path PATH_MAX ;;
    if negb ok then ret (DERR (- EFAULT))
    else call Chdir [path]).

Definition sc_fchmodat (dirfd path mode flags : Z) : M Z :=
  locked (
    ok <- u_strcheck path PATH_MAX ;;
    if negb ok then ret (DERR (- EFAULT))
    else call Fchmodat [dirfd; path; mode; flags]).

Definition sc_chmod (path mode : Z) : M Z :=
  sc_fchmodat AT_FDCWD path mode 0.

Definition sc_fchownat (dirfd path uid gid flags : Z) : M Z :=
  locked (
    ok <- u_strcheck path PATH_MAX ;;
    if negb ok then ret (DERR (- EFAULT))
    else call Fchownat [dirfd; path; uid; gid; flags]).

Definition sc_chown (path uid gid : Z) : M Z :=
  sc_fchownat AT_FDCWD path uid gid 0.

Definition is_flock_cmd (cmd : Z) : bool :=
  (cmd =? F_GETLK hdr) || (cmd =? F_SETLK hdr) || (cmd =? F_SETLKW hdr).

(** The first [switch] returns from inside its cases; the second one runs
    after [fcntl]. *)
Definition sc_fcntl (fd cmd arg : Z) : M Z :=
  if is_flock_cmd cmd then
    r <- u_access_begin ;;
    if r <? 0 then ret r
    else
      ok <- u_access_ok arg (sizeof_flock hdr) PROT_WRITE ;;
      if negb ok then ret (DERR (- EFAULT))
      else
        v <- call Fcntl [fd; cmd; arg] ;;
        u_access_end ;;;
        ret v
  else call Fcntl [fd; cmd; arg].

Definition sc_fstat (fd st : Z) : M Z :=
  locked (
    ok <- u_access_ok st (sizeof_stat hdr) PROT_WRITE ;;
    if negb ok then ret (DERR (- EFAULT))
    else call Fstat [fd; st]).

Definition sc_fstatat (dirfd path st flags : Z) : M Z :=
  locked (
    ok <- all_ok [u_strcheck path PATH_MAX;
                  u_access_ok st (sizeof_stat hdr) PROT_WRITE] ;;
    if negb ok then ret (DERR (- EFAULT))
    else call Fstatat [dirfd; path; st; flags]).

Definition sc_fstatfs (fd bufsiz stf : Z) : M Z :=
  if negb (bufsiz =? sizeof_statfs hdr) then ret (DERR (- EINVAL))
  else
    locked (
      ok <- u_access_ok stf (sizeof_statfs hdr) PROT_WRITE ;;
      if negb ok then ret (DERR (- EFAULT))
      else call Fstatfs [fd; stf]).

(** [getcwd] yields a pointer; the last 4095 addresses encode an error.
    [(ret = getcwd(buf, len)) > (char* )-4096UL ? (int)ret : 1] *)
Definition sc_getcwd (buf len : Z) : M Z :=
  locked (
    ok <- u_access_ok buf len PROT_WRITE ;;
    if negb ok then ret (DERR (- EFAULT))
    else
      p <- call Getcwd [buf; len] ;;
      if to_size_t a p >? to_size_t a (- 4096) then ret (to_int p)
      else ret 1).

Definition sc_getdents (dirfd buf len : Z) : M Z :=
  locked (
    ok <- u_access_ok buf len PROT_WRITE ;;
    if negb ok then ret (DERR (- EFAULT))
    else call Getdents [dirfd; buf; len]).

(** The [switch] that follows [return ioctl(fd, request, argp);] in the
    source is never reached; nothing of it appears here. *)
Definition sc_ioctl (fd request argp : Z) : M Z :=
  let dir := _IOC_DIR hdr request in
  if (dir =? _IOC_READ hdr) || (dir =? _IOC_WRITE hdr) then
    r <- u_access_begin ;;
    if r <? 0 then ret r
    else
      ok <- u_access_ok argp (_IOC_SIZE hdr request)
              (if dir =? _IOC_READ hdr then PROT_WRITE else PROT_READ) ;;
      if negb ok then ret (DERR (- EFAULT))
      else call Ioctl [fd; request; argp]
  else call Ioctl [fd; request; argp].

Definition sc_lchown (path uid gid : Z) : M Z :=
  sc_fchownat AT_FDCWD path uid gid AT_SYMLINK_NOFOLLOW.

Definition sc_llseek (fd off0 off1 result whence : Z) : M Z :=
  locked (
    ok <- u_access_ok result sizeof_off_t PROT_WRITE ;;
    if negb ok then ret (DERR (- EFAULT))
    else
      r <- call Lseek [fd; off_t_of_halves off0 off1; whence] ;;
      if r <? 0 then ret (-1)
      else store result r ;;; ret 0).

Definition sc_mkdirat (dirfd path mode : Z) : M Z :=
  locked (
    ok <- u_strcheck path PATH_MAX ;;
    if negb ok then ret (DERR (- EFAULT))
    else call Mkdirat [dirfd; path; mode]).

Definition sc_mkdir (path mode : Z) : M Z :=
  sc_mkdirat AT_FDCWD path mode.

Definition sc_mknodat (dirfd path mode dev : Z) : M Z :=
  locked (
    ok <- u_strcheck path PATH_MAX ;;
    if negb ok then ret (DERR (- EFAULT))
    else call Mknodat [dirfd; path; mode; dev]).

Definition sc_mknod (path mode dev : Z) : M Z :=
  sc_mknodat AT_FDCWD path mode dev.

(** [data && !u_address(data)] *)
Definition data_ok (data : Z) : M bool :=
  if data =? 0 then ret true else u_address data.

Definition sc_mount (dev dir fs flags data : Z) : M Z :=
  if negb (task_capable (CAP_ADMIN hdr)) then ret (DERR (- EPERM))
  else
    locked (
      ok <- all_ok [u_strcheck dev PATH_MAX; u_strcheck dir PATH_MAX;
                    u_strcheck fs PATH_MAX; data_ok data] ;;
      if negb ok then ret (DERR (- EFAULT))
      else call Mount [dev; dir; fs; flags; data]).

Definition sc_openat (dirfd path flags mode : Z) : M Z :=
  locked (
    ok <- u_strcheck path PATH_MAX ;;
    if negb ok then ret (DERR (- EFAULT))
    else call Openat [dirfd; path; flags; mode]).

Definition sc_open (path flags mode : Z) : M Z :=
  sc_openat AT_FDCWD path flags mode.

Definition sc_pipe2 (fd flags : Z) : M Z :=
  locked (
    ok <- u_access_ok fd (sizeof_int * 2) PROT_WRITE ;;
    if negb ok then ret (DERR (- EFAULT))
    else call Pipe2 [fd; flags]).

Definition sc_pipe (fd : Z) : M Z := sc_pipe2 fd 0.

Definition sc_renameat (fromdirfd from todirfd to : Z) : M Z :=
  locked (
    ok <- all_ok [u_strcheck from PATH_MAX; u_strcheck to PATH_MAX] ;;
    if negb ok then ret (DERR (- EFAULT))
    else call Renameat [fromdirfd; from; todirfd; to]).

Definition sc_rename (from to : Z) : M Z :=
  sc_renameat AT_FDCWD from AT_FDCWD to.

Definition sc_rmdir (path : Z) : M Z :=
  locked (
    ok <- u_strcheck path PATH_MAX ;;
    if negb ok then ret (DERR (- EFAULT))
    else call Rmdir [path]).

Definition sc_stat (path st : Z) : M Z :=
  locked (
    ok <- all_ok [u_strcheck path PATH_MAX;
                  u_access_ok st (sizeof_stat hdr) PROT_WRITE] ;;
    if negb ok then ret (DERR (- EFAULT))
    else call Stat [path; st]).

Definition sc_statfs (path bufsiz stf : Z) : M Z :=
  if negb (bufsiz =? sizeof_statfs hdr) then ret (DERR (- EINVAL))
  else
    locked (
      ok <- all_ok [u_strcheck path PATH_MAX;
                    u_access_ok stf (sizeof_statfs hdr) PROT_WRITE] ;;
      if negb ok then ret (DERR (- EFAULT))
      else call Statfs [path; stf]).

Definition sc_symlinkat (target dirfd path : Z) : M Z :=
  locked (
    ok <- all_ok [u_strcheck target PATH_MAX; u_strcheck path PATH_MAX] ;;
    if negb ok then ret (DERR (- EFAULT))
    else call Symlinkat [target; dirfd; path]).

Definition sc_symlink (target path : Z) : M Z :=
  sc_symlinkat target AT_FDCWD path.

Definition sc_umount2 (dir flags : Z) : M Z :=
  if negb (task_capable (CAP_ADMIN hdr)) then ret (DERR (- EPERM))
  else
    locked (
      ok <- u_strcheck dir PATH_MAX ;;
      if negb ok then ret (DERR (- EFAULT))
      else call Umount2 [dir; flags]).

Definition sc_unlinkat (dirfd path flags : Z) : M Z :=
  locked (
    ok <- u_strcheck path PATH_MAX ;;
    if negb ok then ret (DERR (- EFAULT))
    else call Unlinkat [dirfd; path; flags]).

Definition sc_unlink (path : Z) : M Z := sc_unlinkat AT_FDCWD path 0.

Definition sc_utimensat (dirfd path times flags : Z) : M Z :=
  locked (
    ok <- all_ok [u_strcheck path PATH_MAX;
                  u_access_ok times (sizeof_timespec hdr * 2) PROT_WRITE] ;;
    if negb ok then ret (DERR (- EFAULT))
    else call Utimensat [dirfd; path; times; flags]).

Definition sc_pread (fd buf len offset : Z) : M Z :=
  if offset <? 0 then ret (DERR (- EINVAL))
  else
    locked (
      ok <- u_access_ok buf len PROT_WRITE ;;
      if negb ok then ret (DERR (- EFAULT))
      else call Pread [fd; buf; len; offset]).

Definition sc_pwrite (fd buf len offset : Z) : M Z :=
  if offset <? 0 then ret (DERR (- EINVAL))
  else
    locked (
      ok <- u_access_ok buf len PROT_READ ;;
      if negb ok then ret (DERR (- EFAULT))
      else call Pwrite [fd; buf; len; offset]).

Definition sc_read (fd buf len : Z) : M Z :=
  locked (
    ok <- u_access_ok buf len PROT_WRITE ;;
    if negb ok then ret (DERR (- EFAULT))
    else call Pread [fd; buf; len; -1]).

Definition sc_readlinkat (dirfd path buf len : Z) : M Z :=
  locked (
    ok <- all_ok [u_strcheck path PATH_MAX; u_access_ok buf len PROT_WRITE] ;;
    if negb ok then ret (DERR (- EFAULT))
    else call Readlinkat [dirfd; path; buf; len]).

Definition sc_readlink (path buf len : Z) : M Z :=
  sc_readlinkat AT_FDCWD path buf len.

Definition sc_readv (fd iov count : Z) : M exit :=
  do_iov fd iov count (-1) (k_preadv K) PROT_WRITE.

(** With 32-bit argument words the offset arrives as two halves, [off1]
    then [off0]; otherwise the fourth argument is the offset itself and
    there is no fifth. *)
Definition vec_offset (off1 off0 : Z) : Z :=
  match a with
  | ILP32 => off_t_of_halves off0 off1
  | LP64 => off1
  end.

Definition sc_preadv (fd iov count off1 off0 : Z) : M exit :=
  let offset := vec_offset off1 off0 in
  if offset <? 0 then ret (Ret (DERR (- EINVAL)))
  else do_iov fd iov count offset (k_preadv K) PROT_WRITE.

Definition sc_pwritev (fd iov count off1 off0 : Z) : M exit :=
  let offset := vec_offset off1 off0 in
  if offset <? 0 then ret (Ret (DERR (- EINVAL)))
  else do_iov fd iov count offset (k_pwritev K) PROT_READ.

Definition sc_write (fd buf len : Z) : M Z :=
  locked (
    ok <- u_access_ok buf len PROT_READ ;;
    if negb ok then ret (DERR (- EFAULT))
    else call Write_ [fd; buf; len]).

Definition sc_writev (fd iov count : Z) : M exit :=
  do_iov fd iov count (-1) (k_pwritev K) PROT_READ.

Definition lift (m : M Z) : M exit := v <- m ;; ret (Ret v).

(** ** One entry per wrapper of the file *)
Inductive syscall : Type :=
| SC_access (path mode : Z)
| SC_chdir (path : Z)
| SC_chmod (path mode : Z)
| SC_chown (path uid gid : Z)
| SC_faccessat (dirfd path mode flags : Z)
| SC_fchmodat (dirfd path mode flags : Z)
| SC_fchownat (dirfd path uid gid flags : Z)
| SC_fcntl (fd cmd arg : Z)
| SC_fstat (fd st : Z)
| SC_fstatat (dirfd path st flags : Z)
| SC_fstatfs (fd bufsiz stf : Z)
| SC_getcwd (buf len : Z)
| SC_getdents (dirfd buf len : Z)
| SC_ioctl (fd request argp : Z)
| SC_lchown (path uid gid : Z)
| SC_llseek (fd off0 off1 result whence : Z)
| SC_mkdir (path mode : Z)
| SC_mkdirat (dirfd path mode : Z)
| SC_mknod (path mode dev : Z)
| SC_mknodat (dirfd path mode dev : Z)
| SC_mount (dev dir fs flags data : Z)
| SC_open (path flags mode : Z)
| SC_openat (dirfd path flags mode : Z)
| SC_pipe (fd : Z)
| SC_pipe2 (fd flags : Z)
| SC_rename (from to : Z)
| SC_renameat (fromdirfd from todirfd to : Z)
| SC_rmdir (path : Z)
| SC_stat (path st : Z)
| SC_statfs (path bufsiz stf : Z)
| SC_symlink (target path : Z)
| SC_symlinkat (target dirfd path : Z)
| SC_umount2 (dir flags : Z)
| SC_unlink (path : Z)
| SC_unlinkat (dirfd path flags : Z)
| SC_utimensat (dirfd path times flags : Z)
| SC_pread (fd buf len offset : Z)
| SC_pwrite (fd buf len offset : Z)
| SC_read (fd buf len : Z)
| SC_readlink (path buf len : Z)
| SC_readlinkat (dirfd path buf len : Z)
| SC_readv (fd iov count : Z)
| SC_preadv (fd iov count off1 off0 : Z)
| SC_pwritev (fd iov count off1 off0 : Z)
| SC_write (fd buf len : Z)
| SC_writev (fd iov count : Z).

Definition run (sc : syscall) : M exit :=
  match sc with
  | SC_access path mode => lift (sc_access path mode)
  | SC_chdir path => lift (sc_chdir path)
  | SC_chmod path mode => lift (sc_chmod path mode)
  | SC_chown path uid gid => lift (sc_chown path uid gid)
  | SC_faccessat dirfd path mode flags => lift (sc_faccessat dirfd path mode flags)
  | SC_fchmodat dirfd path mode flags => lift (sc_fchmodat dirfd path mode flags)
  | SC_fchownat dirfd path uid gid flags => lift (sc_fchownat dirfd path uid gid flags)
  | SC_fcntl fd cmd arg => lift (sc_fcntl fd cmd arg)
  | SC_fstat fd st => lift (sc_fstat fd st)
  | SC_fstatat dirfd path st flags => lift (sc_fstatat dirfd path st flags)
  | SC_fstatfs fd bufsiz stf => lift (sc_fstatfs fd bufsiz stf)
  | SC_getcwd buf len => lift (sc_getcwd buf len)
  | SC_getdents dirfd buf len => lift (sc_getdents dirfd buf len)
  | SC_ioctl fd request argp => lift (sc_ioctl fd request argp)
  | SC_lchown path uid gid => lift (sc_lchown path uid gid)
  | SC_llseek fd off0 off1 result whence => lift (sc_llseek fd off0 off1 result whence)
  | SC_mkdir path mode => lift (sc_mkdir path mode)
  | SC_mkdirat dirfd path mode => lift (sc_mkdirat dirfd path mode)
  | SC_mknod path mode dev => lift (sc_mknod path mode dev)
  | SC_mknodat dirfd path mode dev => lift (sc_mknodat dirfd path mode dev)
  | SC_mount dev dir fs flags data => lift (sc_mount dev dir fs flags data)
  | SC_open path flags mode => lift (sc_open path flags mode)
  | SC_openat dirfd path flags mode => lift (sc_openat dirfd path flags mode)
  | SC_pipe fd => lift (sc_pipe fd)
  | SC_pipe2 fd flags => lift (sc_pipe2 fd flags)
  | SC_rename from to => lift (sc_rename from to)
  | SC_renameat fromdirfd from todirfd to => lift (sc_renameat fromdirfd from todirfd to)
  | SC_rmdir path => lift (sc_rmdir path)
  | SC_stat path st => lift (sc_stat path st)
  | SC_statfs path bufsiz stf => lift (sc_statfs path bufsiz stf)
  | SC_symlink target path => lift (sc_symlink target path)
  | SC_symlinkat target dirfd path => lift (sc_symlinkat target dirfd path)
  | SC_umount2 dir flags => lift (sc_umount2 dir flags)
  | SC_unlink path => lift (sc_unlink path)
  | SC_unlinkat dirfd path flags => lift (sc_unlinkat dirfd path flags)
  | SC_utimensat dirfd path times flags => lift (sc_utimensat dirfd path times flags)
  | SC_pread fd buf len offset => lift (sc_pread fd buf len offset)
  | SC_pwrite fd buf len offset => lift (sc_pwrite fd buf len offset)
  | SC_read fd buf len => lift (sc_read fd buf len)
  | SC_readlink path buf len => lift (sc_readlink path buf len)
  | SC_readlinkat dirfd path buf len => lift (sc_readlinkat dirfd path buf len)
  | SC_readv fd iov count => sc_readv fd iov count
  | SC_preadv fd iov count off1 off0 => sc_preadv fd iov count off1 off0
  | SC_pwritev fd iov count off1 off0 => sc_pwritev fd iov count off1 off0
  | SC_write fd buf len => lift (sc_write fd buf len)
  | SC_writev fd iov count => sc_writev fd iov count
  end.

End Kernel.

(** ** What the transfer engine is measured against *)

(** Sum of the lengths of a batch, as a mathematical integer. *)
Definition sum_len (iov : list iovec) : Z :=
  fold_right (fun e acc => iov_len e + acc) 0 iov.

(** The entries that reach the transfer primitive. *)
Definition non_null (ents : list iovec) : list iovec :=
  filter (fun e => negb (iov_base e =? 0)) ents.

(** The length the engine asks of the primitive for a batch: the running
    [ssize_t] sum [l] of the source. *)
Definition requested (a : arch) (iov : list iovec) : Z :=
  fold_left (fun l e => to_ssize_t a (l + iov_len e)) iov 0.

(** Results of the transfer primitive, in call order. *)
Definition xfer_results (tr : list event) : list Z :=
  flat_map (fun e => match e with EvXfer _ _ _ r => [r] | _ => [] end) tr.

(** Batches handed to the transfer primitive, in call order. *)
Definition xfer_batches (tr : list event) : list (list iovec) :=
  flat_map (fun e => match e with EvXfer _ iov _ _ => [iov] | _ => [] end) tr.

(** [ret += r] repeated over a list of results, starting from [t]. *)
Definition accumulate (a : arch) (t : Z) (rs : list Z) : Z :=
  fold_left (fun t r => to_ssize_t a (t + r)) rs t.

(** No argument check of the trace failed. *)
Definition checks_ok (tr : list event) : bool :=
  forallb (fun e => match e with
                    | EvAccessOk _ _ _ ok | EvStrcheck _ _ ok | EvAddress _ ok => ok
                    | _ => true
                    end) tr.

(** A transfer primitive that never reports more than it was asked for,
    the request being the [ssize_t] sum [l] that the engine compares the
    result with. *)
Definition bounded_by_request (W : Type) (a : arch) (fn : xfer_fn W) : Prop :=
  forall fd iov off w, fst (fn fd iov off w) <= requested a iov.

(** The same with the lengths of the batch added up as mathematical
    integers; only batches of well-formed ([size_t]) lengths matter. *)
Definition bounded_by_length (W : Type) (fn : xfer_fn W) : Prop :=
  forall fd iov off w,
    (forall e, In e iov -> 0 <= iov_len e) ->
    fst (fn fd iov off w) <= sum_len iov.

Definition is_xfer (e : event) : bool :=
  match e with EvXfer _ _ _ _ => true | _ => false end.

(** ** What a wrapper is measured against *)

Section Contracts.

Variable W : Type.

(** An argument check: it changes nothing, calls nothing, and a check that
    says no shows as a failed check in the trace. *)
Record check_ok (c : M W bool) : Prop := {
  co_final : forall s, final (c s) = s;
  co_nocall : forall s op args r, ~ In (EvCall op args r) (trace (c s));
  co_noacq : forall s, ~ In EvAcquire (trace (c s));
  co_fail : forall s, value (c s) = false -> checks_ok (trace (c s)) = false
}.

(** The part of a wrapper that runs under the guard: whatever routine it
    calls, it returns that routine's result; when no check fails it does
    call one; it leaves the guard as it found it. *)
Record body_ok (m : M W Z) : Prop := {
  bo_pass : forall s op args r,
      In (EvCall op args r) (trace (m s)) -> value (m s) = r;
  bo_call : forall s,
      checks_ok (trace (m s)) = true ->
      exists op args, In (EvCall op args (value (m s))) (trace (m s));
  bo_held : forall s, held (final (m s)) = held s
}.

(** A whole wrapper: the result of the routine is returned as it is, and
    the routine is called whenever the guard was acquired and no check
    failed. *)
Record wrapper_ok (m : M W Z) : Prop := {
  wo_pass : forall s op args r,
      In (EvCall op args r) (trace (m s)) -> value (m s) = r;
  wo_call : forall s,
      In EvAcquire (trace (m s)) -> checks_ok (trace (m s)) = true ->
      exists op args, In (EvCall op args (value (m s))) (trace (m s))
}.

(** The guard is held as often after the call as before it. *)
Definition balanced (A : Type) (m : M W A) : Prop :=
  forall s, held (final (m s)) = held s.

(** The same two properties for a finished call. *)
Definition passes_through (o : outcome W exit) : Prop :=
  forall op args r, In (EvCall op args r) (trace o) -> value o = Ret r.

Definition calls_when_valid (o : outcome W exit) : Prop :=
  In EvAcquire (trace o) -> checks_ok (trace o) = true ->
  exists op args r, In (EvCall op args r) (trace o) /\ value o = Ret r.

End Contracts.

(** The wrappers that hand the routine's value back as it is.  The others
    post-process it: [sc_getcwd] and [sc_llseek] turn it into a status, the
    vectored calls add up the results of several batches. *)
Definition verbatim (sc : syscall) : bool :=
  match sc with
  | SC_getcwd _ _ | SC_llseek _ _ _ _ _
  | SC_readv _ _ _ | SC_preadv _ _ _ _ _ | SC_pwritev _ _ _ _ _
  | SC_writev _ _ _ => false
  | _ => true
  end.

(** The wrappers whose guard is a scoped lock. *)
Definition scoped (sc : syscall) : bool :=
  match sc with
  | SC_fcntl _ _ _ | SC_ioctl _ _ _ => false
  | _ => true
  end.

(** ** A small machine to run the wrappers on

    The world is a script: the results that the routines behind the
    wrappers give, in the order they are asked for.  A routine asked after
    the script has run out reports end of data. *)

Definition demo_hdr : headers := {|
  sizeof_stat := 104;
  sizeof_statfs := 88;
  sizeof_flock := 24;
  sizeof_timespec := 8;
  F_GETLK := 12;
  F_SETLK := 13;
  F_SETLKW := 14;
  _IOC_READ := 2;
  _IOC_WRITE := 1;
  _IOC_DIR := fun r => Z.land (Z.shiftr r 30) 3;
  _IOC_SIZE := fun r => Z.land (Z.shiftr r 16) 16383;
  CAP_ADMIN := 0
|}.

Definition script : Type := list Z.

Definition next_result (w : script) : Z * script :=
  match w with
  | [] => (0, [])
  | r :: w' => (r, w')
  end.

(** [lockr] is what acquiring the guard yields, [valid] tells the good
    pointers from the bad ones, [capable] is the caller's privilege, [mem]
    is the user memory holding the descriptor array. *)
Definition demo_kernel (lockr : Z) (valid : Z -> bool) (capable : bool)
    (mem : Z -> iovec) (asserts : bool) : kernel script := {|
  k_lock := fun _ => lockr;
  k_access_ok := fun p _ _ => valid p;
  k_strcheck := fun p _ => valid p;
  k_address := fun p => valid p;
  k_capable := fun _ => capable;
  k_op := fun _ _ w => next_result w;
  k_preadv := fun _ _ _ w => next_result w;
  k_pwritev := fun _ _ _ w => next_result w;
  k_iovec_at := mem;
  k_asserts := asserts
|}.

Definition start (w : script) : kstate script := {| world := w; held := O |}.

(** Seventeen one-byte segments at address 1000; the last one points to the
    unmapped address 666. *)
Definition mem17 (p : Z) : iovec :=
  if p =? 1000 + 8 * 16 then {| iov_base := 666; iov_len := 1 |}
  else {| iov_base := 5000; iov_len := 1 |}.

Definition not666 (p : Z) : bool := negb (p =? 666).

(** A single segment with a null pointer and length 10. *)
Definition mem_null (p : Z) : iovec := {| iov_base := 0; iov_len := 10 |}.

Definition all_valid (p : Z) : bool := true.

(** Twenty one-byte segments. *)
Definition mem20 (p : Z) : iovec := {| iov_base := 5000; iov_len := 1 |}.

(** A primitive that transfers all it is asked for. *)
Definition full_xfer (a : arch) : xfer_fn script :=
  fun _ iov _ w => (requested a iov, w).

(** The machines of the scenarios below: the guard is free, the caller is
    privileged unless said otherwise, assertions are compiled in. *)
Definition faulty17 : kernel script := demo_kernel 0 not666 true mem17 true.
Definition null1 : kernel script := demo_kernel 0 all_valid true mem_null true.
Definition plain20 : kernel script := demo_kernel 0 all_valid true mem20 true.
Definition unprivileged : kernel script :=
  demo_kernel 0 all_valid false mem20 true.

(** [readv(3, 1000, 17)]: the first batch of sixteen transfers its sixteen
    bytes, the seventeenth segment is unmapped. *)
Definition fault_after_transfer : outcome script exit :=
  do_iov ILP32 faulty17 3 1000 17 (-1) (k_preadv faulty17) PROT_WRITE
    (start [16]).

(** [readv(3, 1000, 1)] on the single null segment of length 10; the
    primitive reports end of data. *)
Definition scenario_B : outcome script exit :=
  do_iov ILP32 null1 3 1000 1 (-1) (k_preadv null1) PROT_WRITE (start []).

(** What scenario B is said to give: success, no byte transferred, the
    primitive never called. *)
Definition scenario_B_expected (o : outcome script exit) : Prop :=
  value o = Ret 0 /\ xfer_results (trace o) = [] /\ xfer_batches (trace o) = [].

(** [readv(3, 1000, 20)]: sixteen bytes for the first batch, then two of
    the four bytes of the second. *)
Definition scenario_A : outcome script exit :=
  do_iov ILP32 plain20 3 1000 20 (-1) (k_preadv plain20) PROT_WRITE
    (start [16; 2]).

Definition four_segments : list iovec :=
  [mem20 0; mem20 0; mem20 0; mem20 0].

(** [readv(3, 1000, 20)]: five of the sixteen bytes of the first batch;
    four segments are left untouched. *)
Definition short_first_batch : outcome script exit :=
  do_iov ILP32 plain20 3 1000 20 (-1) (k_preadv plain20) PROT_WRITE
    (start [5; 4]).

Definition sixteen_segments : list iovec :=
  four_segments ++ four_segments ++ four_segments ++ four_segments.

(** [ioctl(3, _IOR(0, 0, 0), 77)] answered with 5. *)
Definition ioctl_read : outcome script Z :=
  sc_ioctl demo_hdr null1 3 (2 * 2 ^ 30) 77 (start [5]).

(** [fcntl(3, F_GETLK, 666)] with the unmapped argument 666. *)
Definition fcntl_bad_arg : outcome script Z :=
  sc_fcntl demo_hdr faulty17 3 (F_GETLK demo_hdr) 666 (start [5]).

(** [_llseek(3, 0, 0, 4000, SEEK_SET)] with [lseek] answering 100, and with
    [lseek] answering [-EBADF]. *)
Definition llseek_to_100 : outcome script exit :=
  run ILP32 demo_hdr plain20 (SC_llseek 3 0 0 4000 0) (start [100]).

Definition llseek_ebadf : outcome script exit :=
  run ILP32 demo_hdr plain20 (SC_llseek 3 0 0 4000 0) (start [- EBADF]).

(** A machine on which a signal is pending: the guard cannot be taken. *)
Definition interrupted : kernel script :=
  demo_kernel (- EINTR) all_valid true mem20 true.

(** [readv(3, 1000, 20)]: sixteen bytes for the first batch, then
    [-EBADF]. *)
Definition error_in_second_batch : outcome script exit :=
  do_iov ILP32 plain20 3 1000 20 (-1) (k_preadv plain20) PROT_WRITE
    (start [16; - EBADF]).

(** [fcntl(3, F_GETLK, 666)] through the dispatcher. *)
Definition fcntl_fault : outcome script exit :=
  run ILP32 demo_hdr faulty17 (SC_fcntl 3 (F_GETLK demo_hdr) 666) (start [5]).

(** [pread(3, 666, 10, 0)] through the dispatcher: the buffer is unmapped. *)
Definition pread_fault : outcome script exit :=
  run ILP32 demo_hdr faulty17 (SC_pread 3 666 10 0) (start [7]).

(** Seventeen descriptors at address 1000: sixteen null pointers, then a
    segment at the unmapped address 666. *)
Definition mem_null16 (p : Z) : iovec :=
  if p <? 1000 + 8 * 16 then {| iov_base := 0; iov_len := 10 |}
  else {| iov_base := 666; iov_len := 1 |}.

Definition null16 : kernel script := demo_kernel 0 not666 true mem_null16 true.

(** Seventeen descriptors at address 1000: four segments of 1 GiB each over
    the same buffer, then thirteen one-byte segments.  The first batch of
    sixteen asks for [2^32 + 12] bytes. *)
Definition mem_huge (p : Z) : iovec :=
  if p <? 1000 + 8 * 4 then {| iov_base := 5000; iov_len := 2 ^ 30 |}
  else {| iov_base := 5000; iov_len := 1 |}.

Definition huge_first_batch : list iovec :=
  user_iovs ILP32 (demo_kernel 0 all_valid true mem_huge true) 1000 16.

(** [readv(3, 1000, 17)] on that array; the primitive moves 100 bytes of the
    first batch, then the one byte of the second.  With assertions compiled
    in, and without. *)
Definition huge_checked : outcome script exit :=
  do_iov ILP32 (demo_kernel 0 all_valid true mem_huge true) 3 1000 17 (-1)
    (k_preadv (demo_kernel 0 all_valid true mem_huge true)) PROT_WRITE
    (start [100; 1]).

Definition huge_unchecked : outcome script exit :=
  do_iov ILP32 (demo_kernel 0 all_valid true mem_huge false) 3 1000 17 (-1)
    (k_preadv (demo_kernel 0 all_valid true mem_huge false)) PROT_WRITE
    (start [100; 1]).

(** [getcwd(4000, 64)] when the routine answers with the error pointer -2. *)
Definition getcwd_error : outcome script Z :=
  sc_getcwd ILP32 plain20 4000 64 (start [-2]).

(** [fcntl(3, F_GETLK, 4000)] with a mapped argument, answered with 5. *)
Definition fcntl_good_arg : outcome script Z :=
  sc_fcntl demo_hdr plain20 3 (F_GETLK demo_hdr) 4000 (start [5]).


(** ** Further measures: the shape of a trace *)

Definition is_check (e : event) : bool :=
  match e with
  | EvAccessOk _ _ _ _ | EvStrcheck _ _ _ | EvAddress _ _ => true
  | _ => false
  end.

Definition is_guard (e : event) : bool :=
  match e with EvAcquire | EvRelease => true | _ => false end.

(** The events by which the file system or user memory is touched through
    a single-call wrapper. *)
Definition is_call_or_store (e : event) : bool :=
  match e with EvCall _ _ _ | EvStore _ _ => true | _ => false end.

Definition only_checks (tr : list event) : bool := forallb is_check tr.

(** No guard event: what happens strictly inside the guarded scope. *)
Definition inner (tr : list event) : bool :=
  forallb (fun e => negb (is_guard e)) tr.

(** Neither a single call into the file system nor a store through a result
    pointer.  Transfers of the vectored primitive are not counted here. *)
Definition no_call_or_store (tr : list event) : bool :=
  forallb (fun e => negb (is_call_or_store e)) tr.

(** The transfer primitive was not called. *)
Definition no_transfer (tr : list event) : bool :=
  forallb (fun e => negb (is_xfer e)) tr.

(** Neither the file system nor user memory was reached: no call, no
    transfer, no store. *)
Definition untouched (tr : list event) : bool :=
  forallb (fun e => negb (is_call_or_store e || is_xfer e)) tr.

(** The wrappers that go through [do_iov]. *)
Definition vectored (sc : syscall) : bool :=
  match sc with
  | SC_readv _ _ _ | SC_preadv _ _ _ _ _ | SC_pwritev _ _ _ _ _
  | SC_writev _ _ _ => true
  | _ => false
  end.

(** What a wrapper answers from the tests on its own arguments, the
    statements of the source that come before the guard is taken; [None]
    when they let the call through. *)
Definition refused (W : Type) (a : arch) (hdr : headers) (K : kernel W)
    (sc : syscall) : option Z :=
  match sc with
  | SC_fstatfs _ bufsiz _ | SC_statfs _ bufsiz _ =>
      if negb (bufsiz =? sizeof_statfs hdr) then Some (- EINVAL) else None
  | SC_mount _ _ _ _ _ | SC_umount2 _ _ =>
      if negb (task_capable K (CAP_ADMIN hdr)) then Some (- EPERM) else None
  | SC_pread _ _ _ offset | SC_pwrite _ _ _ offset =>
      if offset <? 0 then Some (- EINVAL) else None
  | SC_readv _ _ count | SC_writev _ _ count =>
      if (count <? 0) || (count >? IOV_MAX) then Some (- EINVAL) else None
  | SC_preadv _ _ count off1 off0 | SC_pwritev _ _ count off1 off0 =>
      if vec_offset a off1 off0 <? 0 then Some (- EINVAL)
      else if (count <? 0) || (count >? IOV_MAX) then Some (- EINVAL)
      else None
  | _ => None
  end.

(** Offsets given to the transfer primitive, in call order. *)
Definition xfer_offsets (tr : list event) : list Z :=
  flat_map (fun e => match e with EvXfer _ _ off _ => [off] | _ => [] end) tr.

(** [if (offset >= 0) offset += r] *)
Definition advance (off r : Z) : Z :=
  if 0 <=? off then to_off_t (off + r) else off.

(** The offsets of successive batches that start at [off] and report [rs]. *)
Fixpoint offsets_from (off : Z) (rs : list Z) : list Z :=
  match rs with
  | [] => []
  | r :: rs' => off :: offsets_from (advance off r) rs'
  end.

(** The wrappers that take the guard whenever they get past their own
    argument tests: all but [sc_ioctl] on a request without a single
    direction and [sc_fcntl] on a command other than the record locks. *)
Definition guarded (hdr : headers) (sc : syscall) : bool :=
  match sc with
  | SC_ioctl _ request _ =>
      (_IOC_DIR hdr request =? _IOC_READ hdr)
      || (_IOC_DIR hdr request =? _IOC_WRITE hdr)
  | SC_fcntl _ cmd _ => is_flock_cmd hdr cmd
  | _ => true
  end.



Section Protocol.

Variable W : Type.

(** An argument check in full: it changes nothing, emits checks only, says
    yes exactly when none of them failed, and stops at the first one that
    fails. *)
Record validation (c : M W bool) : Prop := {
  va_final : forall s, final (c s) = s;
  va_only : forall s, only_checks (trace (c s)) = true;
  va_value : forall s, value (c s) = checks_ok (trace (c s));
  va_stop : forall s,
      value (c s) = false ->
      exists pre e, trace (c s) = pre ++ [e] /\
                    checks_ok pre = true /\ checks_ok [e] = false
}.

(** What runs between taking the guard and giving it back: it does not
    touch the guard, and a failed check is the last thing it does, the
    result being [fault]. *)
Record under_guard (A : Type) (fault : A) (m : M W A) : Prop := {
  ug_inner : forall s, inner (trace (m s)) = true;
  ug_held : forall s, held (final (m s)) = held s;
  ug_fault : forall s,
      checks_ok (trace (m s)) = false ->
      value (m s) = fault /\
      exists pre e, trace (m s) = pre ++ [e] /\
                    checks_ok pre = true /\ checks_ok [e] = false /\
                    no_call_or_store pre = true
}.

(** A computation that never calls the transfer primitive. *)
Definition transferless (A : Type) (m : M W A) : Prop :=
  forall s, no_transfer (trace (m s)) = true.

(** A whole wrapper: either nothing visible happens, or everything happens
    between one acquisition of the guard and its release; a failed check is
    followed by the release only. *)
Record protocol (A : Type) (fault : A) (m : M W A) : Prop := {
  pr_bracket : forall s,
      (trace (m s) = [] /\ final (m s) = s) \/
      (exists mid, trace (m s) = EvAcquire :: mid ++ [EvRelease] /\
                   inner mid = true);
  pr_fault : forall s,
      checks_ok (trace (m s)) = false ->
      value (m s) = fault /\
      exists pre e, trace (m s) = EvAcquire :: pre ++ [e; EvRelease] /\
                    checks_ok pre = true /\ checks_ok [e] = false /\
                    no_call_or_store pre = true
}.

End Protocol.

(** * Properties *)

(** ** Machine integers *)

Lemma word_bits_pos (a : arch) : 32 <= word_bits a.
Proof. destruct a; simpl; lia. Qed.

Lemma to_signed_range (w z : Z) :
  0 < w -> - 2 ^ (w - 1) <= to_signed w z < 2 ^ (w - 1).
Proof.
  intros Hw. unfold to_signed.
  assert (Hp : 2 ^ w = 2 * 2 ^ (w - 1)).
  { replace w with (Z.succ (w - 1)) at 1 by lia. apply Z.pow_succ_r. lia. }
  assert (0 < 2 ^ (w - 1)) by (apply Z.pow_pos_nonneg; lia).
  pose proof (Z.mod_pos_bound (z + 2 ^ (w - 1)) (2 ^ w)). lia.
Qed.

Lemma to_signed_id (w z : Z) :
  0 < w -> - 2 ^ (w - 1) <= z < 2 ^ (w - 1) -> to_signed w z = z.
Proof.
  intros Hw Hz. unfold to_signed.
  assert (Hp : 2 ^ w = 2 * 2 ^ (w - 1)).
  { replace w with (Z.succ (w - 1)) at 1 by lia. apply Z.pow_succ_r. lia. }
  rewrite Z.mod_small by lia. lia.
Qed.

(** Wrapping never increases a number that is not below the range. *)
Lemma to_signed_le (w z : Z) :
  0 < w -> - 2 ^ (w - 1) <= z -> to_signed w z <= z.
Proof.
  intros Hw Hz. unfold to_signed.
  assert (0 < 2 ^ w) by (apply Z.pow_pos_nonneg; lia).
  pose proof (Z.mod_le (z + 2 ^ (w - 1)) (2 ^ w)). lia.
Qed.

Lemma to_unsigned_range (w z : Z) : 0 <= w -> 0 <= to_unsigned w z < 2 ^ w.
Proof.
  intros Hw. unfold to_unsigned. apply Z.mod_pos_bound.
  apply Z.pow_pos_nonneg; lia.
Qed.

Lemma to_unsigned_id (w z : Z) : 0 <= z < 2 ^ w -> to_unsigned w z = z.
Proof. intros Hz. unfold to_unsigned. apply Z.mod_small. exact Hz. Qed.

Lemma to_size_t_small (a : arch) (z : Z) : 0 <= z < 2 ^ 32 -> to_size_t a z = z.
Proof.
  intros Hz. apply to_unsigned_id.
  assert (2 ^ 32 <= 2 ^ word_bits a).
  { apply Z.pow_le_mono_r; [lia | apply word_bits_pos]. }
  lia.
Qed.

Lemma to_size_t_nonneg (a : arch) (z : Z) : 0 <= to_size_t a z.
Proof.
  pose proof (word_bits_pos a).
  apply (to_unsigned_range (w := word_bits a) z). lia.
Qed.

Lemma to_ssize_t_le (a : arch) (z : Z) :
  - 2 ^ (word_bits a - 1) <= z -> to_ssize_t a z <= z.
Proof. pose proof (word_bits_pos a). apply to_signed_le. lia. Qed.

Lemma to_ssize_t_range (a : arch) (z : Z) :
  - 2 ^ (word_bits a - 1) <= to_ssize_t a z < 2 ^ (word_bits a - 1).
Proof. pose proof (word_bits_pos a). apply to_signed_range. lia. Qed.

Lemma to_int_small (z : Z) : - 2 ^ 31 <= z < 2 ^ 31 -> to_int z = z.
Proof. intros Hz. apply to_signed_id; simpl; lia. Qed.

(* The loop and its turns are unfolded on purpose only. *)
Arguments do_iov_body : simpl never.
Arguments do_iov_loop : simpl never.
Arguments iov_fuel : simpl never.

Section Properties.

Variable W : Type.
Variable a : arch.
Variable hdr : headers.
Variable K : kernel W.

Implicit Types (s : kstate W) (st : iov_loop) (fn : xfer_fn W).

(** ** Rejections that come before the guard *)

Lemma do_iov_bad_count fd uiov count offset fn prot s :
  count < 0 \/ IOV_MAX < count ->
  do_iov a K fd uiov count offset fn prot s = Out (Ret (- EINVAL)) s [].
Proof.
  intros Hc. unfold do_iov.
  replace ((count <? 0) || (count >? IOV_MAX)) with true; [reflexivity|].
  symmetry. apply orb_true_iff. rewrite Z.ltb_lt, Z.gtb_ltb, Z.ltb_lt. lia.
Qed.

(** C6: a descriptor count below zero or above [IOV_MAX] makes [do_iov], and
    with it each of the four vectored calls, return [-EINVAL]; the state is
    untouched and the trace is empty, so the guard was not acquired, nothing
    was validated and the transfer primitive was not invoked. *)
Theorem bad_count_is_einval fd uiov count offset off1 off0 fn prot s :
  count < 0 \/ IOV_MAX < count ->
  do_iov a K fd uiov count offset fn prot s = Out (Ret (- EINVAL)) s [] /\
  sc_readv a K fd uiov count s = Out (Ret (- EINVAL)) s [] /\
  sc_writev a K fd uiov count s = Out (Ret (- EINVAL)) s [] /\
  sc_preadv a K fd uiov count off1 off0 s = Out (Ret (- EINVAL)) s [] /\
  sc_pwritev a K fd uiov count off1 off0 s = Out (Ret (- EINVAL)) s [].
Proof.
  intros Hc. unfold sc_readv, sc_writev, sc_preadv, sc_pwritev.
  repeat split; try (apply do_iov_bad_count; exact Hc);
    destruct (vec_offset a off1 off0 <? 0);
    try reflexivity; apply do_iov_bad_count; exact Hc.
Qed.

(** C8: a positioned call with a negative offset returns [-EINVAL] with the
    state untouched and an empty trace: no guard, no validation, no call of
    [pread], [pwrite], [preadv] or [pwritev].  For the vectored calls the
    offset is the one the wrapper assembles from its arguments. *)
Theorem negative_offset_is_einval fd buf len offset iov count off1 off0 s :
  offset < 0 ->
  vec_offset a off1 off0 < 0 ->
  sc_pread K fd buf len offset s = Out (- EINVAL) s [] /\
  sc_pwrite K fd buf len offset s = Out (- EINVAL) s [] /\
  sc_preadv a K fd iov count off1 off0 s = Out (Ret (- EINVAL)) s [] /\
  sc_pwritev a K fd iov count off1 off0 s = Out (Ret (- EINVAL)) s [].
Proof.
  intros Ho Hv. apply Z.ltb_lt in Ho. apply Z.ltb_lt in Hv.
  unfold sc_pread, sc_pwrite, sc_preadv, sc_pwritev.
  rewrite Ho. cbv zeta. rewrite Hv. repeat split.
Qed.

(** C9: without [CAP_ADMIN], [sc_mount] and [sc_umount2] return [-EPERM] with
    the state untouched and an empty trace: the guard is not acquired, no
    string or pointer is validated, [mount] and [umount2] are not called. *)
Theorem unprivileged_mount_is_eperm dev dir fs flags data s :
  task_capable K (CAP_ADMIN hdr) = false ->
  sc_mount hdr K dev dir fs flags data s = Out (- EPERM) s [] /\
  sc_umount2 hdr K dir flags s = Out (- EPERM) s [].
Proof.
  intros Hcap. unfold sc_mount, sc_umount2. rewrite Hcap. split; reflexivity.
Qed.

(** ** The batch loop of [do_iov] *)

(** Validation leaves the state alone and never reaches the primitive. *)
Lemma gather_final prot ents : forall iov l s,
  final (gather a K prot ents iov l s) = s.
Proof.
  induction ents as [|e rest IH]; intros iov l s; simpl; [reflexivity|].
  destruct (iov_base e =? 0); [apply IH|].
  unfold bind, u_access_ok; simpl.
  destruct (k_access_ok K (iov_base e) (iov_len e) prot); simpl;
    [apply IH | reflexivity].
Qed.

Lemma gather_no_xfer prot ents : forall iov l s,
  xfer_results (trace (gather a K prot ents iov l s)) = [] /\
  xfer_batches (trace (gather a K prot ents iov l s)) = [].
Proof.
  induction ents as [|e rest IH]; intros iov l s; simpl; [split; reflexivity|].
  destruct (iov_base e =? 0); [apply IH|].
  unfold bind, u_access_ok; simpl.
  destruct (k_access_ok K (iov_base e) (iov_len e) prot); simpl;
    [apply IH | split; reflexivity].
Qed.

(** A batch that passes validation is the non-null entries in order, and [l]
    is the running sum over them. *)
Lemma gather_some prot ents : forall iov l s iov' l',
  value (gather a K prot ents iov l s) = Some (iov', l') ->
  iov' = iov ++ non_null ents /\
  l' = fold_left (fun l e => to_ssize_t a (l + iov_len e)) (non_null ents) l.
Proof.
  induction ents as [|e rest IH]; intros iov l s iov' l' Hg; simpl in *.
  - inversion Hg; subst. rewrite app_nil_r. split; reflexivity.
  - destruct (iov_base e =? 0); simpl; [eapply IH; eassumption|].
    unfold bind, u_access_ok in Hg; simpl in Hg.
    destruct (k_access_ok K (iov_base e) (iov_len e) prot); simpl in Hg;
      [|discriminate].
    apply IH in Hg. destruct Hg as [-> ->].
    rewrite <- app_assoc. split; reflexivity.
Qed.

(** A batch fails validation exactly when a check of it fails. *)
Lemma gather_none prot ents : forall iov l s,
  value (gather a K prot ents iov l s) = None ->
  checks_ok (trace (gather a K prot ents iov l s)) = false.
Proof.
  induction ents as [|e rest IH]; intros iov l s Hg; simpl in *; [discriminate|].
  destruct (iov_base e =? 0); [apply IH; exact Hg|].
  unfold bind, u_access_ok in *; simpl in *.
  destruct (k_access_ok K (iov_base e) (iov_len e) prot); simpl in *;
    [apply IH; exact Hg | reflexivity].
Qed.

Lemma non_null_bases ents e : In e (non_null ents) -> iov_base e <> 0.
Proof.
  unfold non_null. rewrite filter_In. intros [_ Hb] Hz.
  rewrite Hz in Hb. discriminate.
Qed.

(** ** Sums over the descriptor array *)

Lemma sum_len_app l1 l2 : sum_len (l1 ++ l2) = sum_len l1 + sum_len l2.
Proof. induction l1 as [|e l1 IH]; simpl; [reflexivity | rewrite IH; lia]. Qed.

Lemma non_null_app l1 l2 : non_null (l1 ++ l2) = non_null l1 ++ non_null l2.
Proof. apply filter_app. Qed.

Lemma user_iovs_len_nonneg u n e : In e (user_iovs a K u n) -> 0 <= iov_len e.
Proof.
  unfold user_iovs. rewrite in_map_iff. intros (i & <- & _).
  simpl. apply to_size_t_nonneg.
Qed.

Lemma sum_len_nonneg iov :
  (forall e, In e iov -> 0 <= iov_len e) -> 0 <= sum_len iov.
Proof.
  induction iov as [|e iov IH]; simpl; intros H; [lia|].
  pose proof (H e (or_introl eq_refl)).
  assert (0 <= sum_len iov) by (apply IH; intros; apply H; right; assumption).
  lia.
Qed.

Lemma non_null_incl ents e : In e (non_null ents) -> In e ents.
Proof. unfold non_null. rewrite filter_In. tauto. Qed.

Lemma sum_non_null_nonneg u n : 0 <= sum_len (non_null (user_iovs a K u n)).
Proof.
  apply sum_len_nonneg. intros e He.
  eapply user_iovs_len_nonneg, non_null_incl, He.
Qed.

(** The first [c] entries, then the array that starts [c] entries later. *)
Lemma user_iovs_split u c n :
  0 <= c <= n ->
  user_iovs a K u n =
  user_iovs a K u c ++ user_iovs a K (u + c * sizeof_iovec a) (n - c).
Proof.
  intros Hc. unfold user_iovs.
  replace (Z.to_nat n) with (Z.to_nat c + Z.to_nat (n - c))%nat by lia.
  rewrite seq_app, map_app. f_equal. simpl.
  rewrite <- (Nat.add_0_r (Z.to_nat c)) at 1.
  rewrite Nat.add_comm.
  generalize 0%nat as k.
  induction (Z.to_nat (n - c)) as [|m IH]; intros k; simpl; [reflexivity|].
  f_equal.
  - f_equal. rewrite Nat2Z.inj_add, Z2Nat.id by lia. ring.
  - apply (IH (S k)).
Qed.

(** The running [ssize_t] sum never exceeds the true one. *)
Lemma wrapped_sum_le iov : forall l,
  (forall e, In e iov -> 0 <= iov_len e) ->
  - 2 ^ (word_bits a - 1) <= l ->
  fold_left (fun l e => to_ssize_t a (l + iov_len e)) iov l <= l + sum_len iov.
Proof.
  induction iov as [|e iov IH]; intros l Hpos Hl; simpl; [lia|].
  pose proof (Hpos e (or_introl eq_refl)) as He.
  pose proof (to_ssize_t_le a (z := l + iov_len e)) as Hle.
  pose proof (to_ssize_t_range a (l + iov_len e)) as Hr.
  etransitivity.
  - apply IH; [intros; apply Hpos; right; assumption | lia].
  - lia.
Qed.

Lemma requested_le_sum iov :
  (forall e, In e iov -> 0 <= iov_len e) -> requested a iov <= sum_len iov.
Proof.
  intros Hpos. unfold requested.
  pose proof (word_bits_pos a).
  assert (0 < 2 ^ (word_bits a - 1)) by (apply Z.pow_pos_nonneg; lia).
  pose proof (@wrapped_sum_le iov 0 Hpos). lia.
Qed.

(** As long as the true sum fits an [ssize_t], the running sum is that
    sum. *)
Lemma wrapped_sum_exact iov : forall l,
  (forall e, In e iov -> 0 <= iov_len e) ->
  0 <= l ->
  l + sum_len iov <= SSIZE_MAX a ->
  fold_left (fun l e => to_ssize_t a (l + iov_len e)) iov l = l + sum_len iov.
Proof.
  pose proof (word_bits_pos a) as Hw.
  induction iov as [|e iov IH]; intros l Hpos Hl Hmax; simpl; [lia|].
  pose proof (Hpos e (or_introl eq_refl)) as He.
  assert (Hs : 0 <= sum_len iov)
    by (apply sum_len_nonneg; intros; apply Hpos; right; assumption).
  simpl in Hmax. unfold SSIZE_MAX in Hmax.
  assert (Hid : to_ssize_t a (l + iov_len e) = l + iov_len e).
  { apply to_signed_id; [lia|].
    assert (0 < 2 ^ (word_bits a - 1)) by (apply Z.pow_pos_nonneg; lia). lia. }
  rewrite Hid, IH; [lia | intros; apply Hpos; right; assumption | lia |].
  unfold SSIZE_MAX. lia.
Qed.

Lemma requested_exact iov :
  (forall e, In e iov -> 0 <= iov_len e) ->
  sum_len iov <= SSIZE_MAX a ->
  requested a iov = sum_len iov.
Proof.
  intros Hpos Hmax. unfold requested.
  rewrite wrapped_sum_exact; [lia | exact Hpos | lia | lia].
Qed.

Lemma request_within_length fn :
  bounded_by_request a fn -> bounded_by_length fn.
Proof.
  intros Hb fd iov off w Hpos.
  etransitivity; [apply Hb | apply requested_le_sum, Hpos].
Qed.

Lemma xfer_batches_app t1 t2 :
  xfer_batches (t1 ++ t2) = xfer_batches t1 ++ xfer_batches t2.
Proof. apply flat_map_app. Qed.

Lemma xfer_results_app t1 t2 :
  xfer_results (t1 ++ t2) = xfer_results t1 ++ xfer_results t2.
Proof. apply flat_map_app. Qed.

(** One turn, spelled out: either validation fails, or the primitive is
    called once on the non-null entries of the batch, with the running sum of
    their lengths as the request. *)
Lemma do_iov_body_eq fd fn prot st s :
  let c := Z.min (to_size_t a (count st)) batch_size in
  let og := gather a K prot (user_iovs a K (uiov st) c) [] 0 s in
  let iov := non_null (user_iovs a K (uiov st) c) in
  let rw := fn fd iov (offset st) (world s) in
  do_iov_body a K fd fn prot st s =
  match value og with
  | None => Out (Break (Ret (- EFAULT))) s (trace og)
  | Some _ =>
      Out (after_transfer a K st c (requested a iov) (fst rw))
          {| world := snd rw; held := held s |}
          (trace og ++ [EvXfer fd iov (offset st) (fst rw)])
  end.
Proof.
  cbv zeta. unfold do_iov_body, bind. cbv zeta.
  destruct (value (gather a K prot
                     (user_iovs a K (uiov st)
                        (Z.min (to_size_t a (count st)) batch_size)) [] 0 s))
    as [[iov l]|] eqn:Hg.
  - apply gather_some in Hg. simpl in Hg. destruct Hg as [-> ->].
    unfold call_fn. rewrite gather_final. fold (requested a
      (non_null (user_iovs a K (uiov st)
                   (Z.min (to_size_t a (count st)) batch_size)))).
    destruct (fn fd _ (offset st) (world s)) as [r w']. simpl.
    reflexivity.
  - simpl. rewrite gather_final, app_nil_r. reflexivity.
Qed.

Ltac case_gather :=
  match goal with
  | |- context [value (gather ?a ?K ?p ?e ?i ?l ?s)] =>
      destruct (value (gather a K p e i l s)) as [?g|] eqn:?Hg
  end.

Lemma do_iov_body_held fd fn prot st s :
  held (final (do_iov_body a K fd fn prot st s)) = held s.
Proof.
  rewrite do_iov_body_eq. cbv zeta. case_gather; reflexivity.
Qed.

(** The count as the loop sees it: an [int] that went through [size_t]. *)
Lemma count_after_batch (n : Z) :
  0 <= n < 2 ^ 31 ->
  let c := Z.min (to_size_t a n) batch_size in
  c = Z.min n batch_size /\
  to_int (to_size_t a (to_size_t a n - c)) = n - Z.min n batch_size.
Proof.
  intros Hn. cbv zeta. rewrite (@to_size_t_small a n) by lia.
  split; [reflexivity|].
  unfold batch_size.
  rewrite to_size_t_small by lia. apply to_int_small. lia.
Qed.

(** A turn that goes on has consumed a whole batch, of which the primitive
    transferred every byte. *)
Lemma after_transfer_continue st l r st' :
  0 <= count st < 2 ^ 31 ->
  after_transfer a K st (Z.min (to_size_t a (count st)) batch_size) l r
    = Continue st' ->
  count st' = count st - Z.min (count st) batch_size /\
  0 < count st' < count st /\
  uiov st' = uiov st + Z.min (count st) batch_size * sizeof_iovec a /\
  total st' = to_ssize_t a (total st + r) /\
  0 < r /\ l <= r.
Proof.
  intros Hc. destruct (count_after_batch Hc) as [Hmin Hcnt].
  unfold after_transfer. rewrite Hcnt, Hmin.
  destruct (r =? 0) eqn:H0; [discriminate|].
  destruct (r <? 0) eqn:Hneg; [destruct (negb _); discriminate|].
  destruct (r <? l) eqn:Hlt; [discriminate|].
  destruct (k_asserts K && negb (r =? l)); [discriminate|].
  destruct (count st - Z.min (count st) batch_size =? 0) eqn:Hz;
    [discriminate|].
  intros Heq. inversion Heq; subst; simpl.
  apply Z.eqb_neq in H0, Hz. apply Z.ltb_ge in Hneg, Hlt.
  unfold batch_size in *. repeat split; lia.
Qed.

Lemma do_iov_body_continue fd fn prot st s st' :
  0 <= count st < 2 ^ 31 ->
  value (do_iov_body a K fd fn prot st s) = Continue st' ->
  count st' = count st - Z.min (count st) batch_size /\
  0 < count st' < count st /\
  uiov st' = uiov st + Z.min (count st) batch_size * sizeof_iovec a.
Proof.
  intros Hc. rewrite do_iov_body_eq. cbv zeta.
  case_gather; simpl; [|discriminate].
  intros Hat. apply after_transfer_continue in Hat; [tauto | exact Hc].
Qed.



(** The loop, one turn unrolled. *)
Lemma do_iov_loop_S fd fn prot fuel st s :
  do_iov_loop a K (S fuel) fd fn prot st s =
  let o := do_iov_body a K fd fn prot st s in
  match value o with
  | Break e => Out e (final o) (trace o)
  | Continue st' =>
      let o' := do_iov_loop a K fuel fd fn prot st' (final o) in
      Out (value o') (final o') (trace o ++ trace o')
  end.
Proof.
  change (do_iov_loop a K (S fuel) fd fn prot st s)
    with (bind (do_iov_body a K fd fn prot st)
            (fun b => match b with
                      | Break e => ret e
                      | Continue st' => do_iov_loop a K fuel fd fn prot st'
                      end) s).
  unfold bind. cbv zeta.
  destruct (value (do_iov_body a K fd fn prot st s)); simpl;
    [rewrite app_nil_r|]; reflexivity.
Qed.

Lemma do_iov_loop_held fd fn prot fuel : forall st s,
  held (final (do_iov_loop a K fuel fd fn prot st s)) = held s.
Proof.
  induction fuel as [|fuel IH]; intros st s; [reflexivity|].
  rewrite do_iov_loop_S. cbv zeta.
  pose proof (do_iov_body_held fd fn prot st s) as Hh.
  destruct (value (do_iov_body a K fd fn prot st s)); simpl;
    [exact Hh | rewrite IH; exact Hh].
Qed.





(** ** The byte count stays within the non-null segments *)

Lemma do_iov_body_bound fd fn prot st s B :
  bounded_by_length fn ->
  0 <= count st < 2 ^ 31 ->
  - 2 ^ (word_bits a - 1) <= total st ->
  total st + sum_len (non_null (user_iovs a K (uiov st) (count st))) <= B ->
  0 <= B ->
  match value (do_iov_body a K fd fn prot st s) with
  | Break (Ret v) => v <= B
  | Break _ => True
  | Continue st' =>
      - 2 ^ (word_bits a - 1) <= total st' /\
      total st' + sum_len (non_null (user_iovs a K (uiov st') (count st'))) <= B
  end.
Proof.
  intros Hb Hc Ht HB HB0.
  rewrite do_iov_body_eq. cbv zeta.
  case_gather; simpl; [|unfold EFAULT; lia].
  destruct (count_after_batch Hc) as [Hmin _]. cbv zeta in Hmin.
  set (c := Z.min (to_size_t a (count st)) batch_size) in *.
  set (iov := non_null (user_iovs a K (uiov st) c)).
  assert (Hcr : 0 <= c <= count st) by (rewrite Hmin; unfold batch_size; lia).
  rewrite (user_iovs_split (uiov st) Hcr), non_null_app, sum_len_app in HB.
  fold iov in HB.
  pose proof (sum_non_null_nonneg (uiov st + c * sizeof_iovec a) (count st - c)).
  pose proof (sum_non_null_nonneg (uiov st) c) as Hs0. fold iov in Hs0.
  assert (Hr : fst (fn fd iov (offset st) (world s)) <= sum_len iov).
  { apply Hb. intros e He.
    eapply user_iovs_len_nonneg, non_null_incl, He. }
  generalize dependent (fst (fn fd iov (offset st) (world s))). intros r Hr.
  destruct (after_transfer a K st c (requested a iov) r) as [e|st'] eqn:Hat.
  - unfold after_transfer in Hat.
    pose proof (@to_ssize_t_le a (total st + r)) as Hle.
    destruct (r =? 0); [inversion Hat; lia|].
    destruct (r <? 0) eqn:Hneg.
    { apply Z.ltb_lt in Hneg.
      destruct (negb (total st =? 0)); inversion Hat; lia. }
    apply Z.ltb_ge in Hneg.
    destruct (r <? _); [inversion Hat; lia|].
    destruct (k_asserts K && _); [inversion Hat; exact I|].
    destruct (_ =? 0); inversion Hat. lia.
  - apply after_transfer_continue in Hat; [|exact Hc].
    destruct Hat as (Hcnt & _ & Hu & Htot & Hr0 & _).
    rewrite Hcnt, Hu, Htot, <- Hmin.
    pose proof (@to_ssize_t_le a (total st + r)) as Hle.
    pose proof (to_ssize_t_range a (total st + r)) as Hrg.
    split; lia.
Qed.

Lemma do_iov_loop_bound fd fn prot fuel : forall st s B v,
  bounded_by_length fn ->
  0 <= count st < 2 ^ 31 ->
  - 2 ^ (word_bits a - 1) <= total st ->
  total st + sum_len (non_null (user_iovs a K (uiov st) (count st))) <= B ->
  0 <= B ->
  value (do_iov_loop a K fuel fd fn prot st s) = Ret v ->
  v <= B.
Proof.
  induction fuel as [|fuel IH]; intros st s B v Hb Hc Ht HB HB0 Hv;
    [discriminate|].
  rewrite do_iov_loop_S in Hv. cbv zeta in Hv.
  pose proof (do_iov_body_bound fd prot st s Hb Hc Ht HB HB0) as Hbody.
  destruct (value (do_iov_body a K fd fn prot st s)) as [e|st'] eqn:Hstep;
    cbv beta iota in Hv; unfold value at 1 in Hv.
  - subst e. exact Hbody.
  - destruct Hbody as [Ht' HB'].
    apply do_iov_body_continue in Hstep; [|exact Hc].
    destruct Hstep as (_ & Hlt & _).
    refine (IH st' _ B v Hb _ Ht' HB' HB0 Hv). lia.
Qed.

(** Only non-null entries reach the primitive. *)
Lemma do_iov_body_batches fd fn prot st s iov e :
  In iov (xfer_batches (trace (do_iov_body a K fd fn prot st s))) ->
  In e iov -> iov_base e <> 0.
Proof.
  rewrite do_iov_body_eq. cbv zeta.
  pose proof (gather_no_xfer prot
                (user_iovs a K (uiov st)
                   (Z.min (to_size_t a (count st)) batch_size)) [] 0 s)
    as [_ Hnb].
  case_gather; simpl.
  - rewrite xfer_batches_app, Hnb. simpl.
    intros [<-|[]] He. eapply non_null_bases, He.
  - rewrite Hnb. intros [].
Qed.

Lemma do_iov_loop_batches fd fn prot fuel : forall st s iov e,
  In iov (xfer_batches (trace (do_iov_loop a K fuel fd fn prot st s))) ->
  In e iov -> iov_base e <> 0.
Proof.
  induction fuel as [|fuel IH]; intros st s iov e; [intros []|].
  rewrite do_iov_loop_S. cbv zeta.
  pose proof (@do_iov_body_batches fd fn prot st s iov e) as Hbody.
  destruct (value (do_iov_body a K fd fn prot st s)) as [x|st'] eqn:Hstep;
    cbv beta iota; unfold trace at 1; [exact Hbody|].
  rewrite xfer_batches_app, in_app_iff. intros [Hin|Hin] He.
  - apply Hbody; assumption.
  - eapply IH; eassumption.
Qed.

(** ** The whole call *)

Lemma array_size (n : Z) :
  0 <= n <= IOV_MAX ->
  to_size_t a (sizeof_iovec a * to_size_t a n) = sizeof_iovec a * n.
Proof.
  unfold IOV_MAX. intros Hn.
  rewrite (@to_size_t_small a n) by lia.
  apply to_size_t_small. unfold sizeof_iovec.
  destruct a; cbn [word_bits];
    [change (32 / 8) with 4 | change (64 / 8) with 8]; lia.
Qed.

(** A scope under the guard: nothing happens when the acquisition is
    interrupted; otherwise the body runs between taking the guard and
    giving it back. *)
Lemma interruptible_lock_eq (A : Type) (inj : Z -> A) (body : M W A) s :
  interruptible_lock K inj body s =
  if k_lock K (world s) <? 0 then Out (inj (k_lock K (world s))) s []
  else
    let o := body {| world := world s; held := S (held s) |} in
    Out (value o)
        {| world := world (final o); held := Nat.pred (held (final o)) |}
        (EvAcquire :: trace o ++ [EvRelease]).
Proof.
  unfold interruptible_lock, bind, acquire, release. cbv zeta.
  destruct (k_lock K (world s) <? 0) eqn:Hl; simpl; rewrite Hl; simpl;
    reflexivity.
Qed.

(** [do_iov] once the count is accepted: the guard, the check of the
    descriptor array, the loop, and the guard given back. *)
Lemma do_iov_eq fd u n off fn prot s :
  0 <= n <= IOV_MAX ->
  let sz := sizeof_iovec a * n in
  let s1 := {| world := world s; held := S (held s) |} in
  let o := do_iov_loop a K (iov_fuel n) fd fn prot
             {| uiov := u; count := n; offset := off; total := 0 |} s1 in
  do_iov a K fd u n off fn prot s =
  if k_lock K (world s) <? 0 then Out (Ret (k_lock K (world s))) s []
  else if k_access_ok K u sz PROT_READ then
    Out (value o) {| world := world (final o); held := held s |}
        (EvAcquire :: EvAccessOk u sz PROT_READ true :: trace o ++ [EvRelease])
  else
    Out (Ret (- EFAULT)) {| world := world s; held := held s |}
        [EvAcquire; EvAccessOk u sz PROT_READ false; EvRelease].
Proof.
  intros Hn. cbv zeta. unfold do_iov.
  replace ((n <? 0) || (n >? IOV_MAX)) with false.
  2:{ symmetry. apply orb_false_iff. rewrite Z.gtb_ltb, !Z.ltb_ge. lia. }
  rewrite (array_size Hn), interruptible_lock_eq.
  destruct (k_lock K (world s) <? 0); [reflexivity|].
  remember (do_iov_loop a K (iov_fuel n) fd fn prot
              {| uiov := u; count := n; offset := off; total := 0 |}) as L.
  unfold bind, u_access_ok. cbv zeta.
  destruct (k_access_ok K u (sizeof_iovec a * n) PROT_READ); simpl;
    [|reflexivity].
  subst L. rewrite do_iov_loop_held. reflexivity.
Qed.

Lemma iov_count_small (n : Z) : 0 <= n <= IOV_MAX -> 0 <= n < 2 ^ 31.
Proof. unfold IOV_MAX. lia. Qed.


(** C3: against a primitive that never reports more than the lengths of its
    batch add up to, whatever [do_iov] returns is at most the sum of the
    lengths of the non-null entries among the [n] descriptors, and no batch
    handed to the primitive contains an entry with a null pointer. *)
Theorem do_iov_within_segments fd u n off fn prot s :
  bounded_by_length fn ->
  (forall v, value (do_iov a K fd u n off fn prot s) = Ret v ->
             v <= sum_len (non_null (user_iovs a K u n))) /\
  (forall iov e, In iov (xfer_batches (trace (do_iov a K fd u n off fn prot s))) ->
                 In e iov -> iov_base e <> 0).
Proof.
  intros Hb.
  pose proof (sum_non_null_nonneg u n) as Hsum.
  destruct (Z_lt_ge_dec n 0) as [Hneg|Hpos];
    [|destruct (Z_le_gt_dec n IOV_MAX) as [Hle|Hgt]].
  - rewrite do_iov_bad_count by lia. simpl. split.
    + intros v Hv. inversion Hv. unfold EINVAL. lia.
    + intros iov e [].
  - assert (Hn : 0 <= n <= IOV_MAX) by lia.
    rewrite (do_iov_eq fd u off fn prot s Hn). cbv zeta.
    destruct (k_lock K (world s) <? 0) eqn:Hl.
    { simpl. split; [|intros iov e []].
      intros v Hv. inversion Hv. apply Z.ltb_lt in Hl. lia. }
    destruct (k_access_ok K u (sizeof_iovec a * n) PROT_READ).
    2:{ simpl. split; [|intros iov e []].
        intros v Hv. inversion Hv. unfold EFAULT. lia. }
    cbn [value trace]. split.
    + intros v Hv.
      pose proof (word_bits_pos a).
      assert (0 < 2 ^ (word_bits a - 1)) by (apply Z.pow_pos_nonneg; lia).
      eapply do_iov_loop_bound;
        [exact Hb | | | | exact Hsum | exact Hv]; cbn [count total uiov].
      * apply iov_count_small, Hn.
      * lia.
      * lia.
    + intros iov e Hin He.
      match type of Hin with
      | In _ (xfer_batches (_ :: _ :: ?t)) =>
          change (In iov (xfer_batches t)) in Hin
      end.
      rewrite xfer_batches_app, in_app_iff in Hin.
      destruct Hin as [Hin|[]].
      eapply do_iov_loop_batches; eassumption.
  - rewrite do_iov_bad_count by lia. simpl. split.
    + intros v Hv. inversion Hv. unfold EINVAL. lia.
    + intros iov e [].
Qed.

(** ** A short transfer ends the call *)

(** Validating a batch emits checks only. *)
Lemma gather_checks_only prot ents : forall iov l s e,
  In e (trace (gather a K prot ents iov l s)) -> is_xfer e = false.
Proof.
  induction ents as [|x rest IH]; intros iov l s e; simpl; [intros []|].
  destruct (iov_base x =? 0); [apply IH|].
  unfold bind, u_access_ok; simpl.
  destruct (k_access_ok K (iov_base x) (iov_len x) prot); simpl.
  - intros [<-|Hin]; [reflexivity | eapply IH, Hin].
  - intros [<-|[]]. reflexivity.
Qed.

(** Where a transfer sits in a trace that starts with checks, then has the
    transfer [x0], then [rest]. *)
Lemma locate_xfer (tg : list event) (x0 : event) : forall rest pre x post,
  (forall e, In e tg -> is_xfer e = false) ->
  is_xfer x = true ->
  tg ++ x0 :: rest = pre ++ x :: post ->
  (pre = tg /\ x = x0 /\ post = rest) \/
  (exists pre', pre = tg ++ x0 :: pre' /\ rest = pre' ++ x :: post).
Proof.
  induction tg as [|e tg IH]; intros rest pre x post Htg Hx Heq.
  - destruct pre as [|p pre]; simpl in Heq; inversion Heq; subst.
    + left. repeat split.
    + right. exists pre. split; reflexivity.
  - destruct pre as [|p pre]; simpl in Heq; inversion Heq; subst.
    + rewrite (Htg x (or_introl eq_refl)) in Hx. discriminate.
    + destruct (IH rest pre x post) as [(-> & -> & ->)|(pre' & -> & ->)];
        [intros; apply Htg; right; assumption | exact Hx | assumption | |].
      * left. repeat split.
      * right. exists pre'. split; reflexivity.
Qed.

Lemma xfer_not_among_checks (tg pre : list event) x post :
  (forall e, In e tg -> is_xfer e = false) ->
  is_xfer x = true ->
  tg <> pre ++ x :: post.
Proof.
  intros Htg Hx Heq.
  rewrite (Htg x) in Hx; [discriminate|].
  rewrite Heq. apply in_elt.
Qed.

(** The last event of a trace is not in the middle of it. *)
Lemma split_before_last (t pre : list event) (z x : event) : forall post,
  t ++ [z] = pre ++ x :: post ->
  x <> z ->
  exists post', post = post' ++ [z] /\ t = pre ++ x :: post'.
Proof.
  intros post. destruct (@exists_last _ (x :: post)) as (l' & y & Hl);
    [discriminate|].
  intros Heq Hne. rewrite Hl, app_assoc in Heq.
  apply app_inj_tail in Heq. destruct Heq as [-> ->].
  destruct l' as [|x' post'].
  - simpl in Hl. inversion Hl. congruence.
  - simpl in Hl. inversion Hl; subst. exists post'. split; reflexivity.
Qed.

Lemma xfer_results_checks (tg : list event) :
  (forall e, In e tg -> is_xfer e = false) -> xfer_results tg = [].
Proof.
  induction tg as [|e tg IH]; intros H; [reflexivity|].
  pose proof (H e (or_introl eq_refl)) as He.
  destruct e; simpl in *; try discriminate;
    apply IH; intros; apply H; right; assumption.
Qed.

Lemma after_transfer_short st c l r :
  0 < r -> r < l ->
  after_transfer a K st c l r = Break (Ret (to_ssize_t a (total st + r))).
Proof.
  intros H0 Hl. unfold after_transfer.
  replace (r =? 0) with false by (symmetry; apply Z.eqb_neq; lia).
  replace (r <? 0) with false by (symmetry; apply Z.ltb_ge; lia).
  replace (r <? l) with true by (symmetry; apply Z.ltb_lt; lia).
  reflexivity.
Qed.

Lemma do_iov_loop_short fd fn prot fuel : forall st s pre post fd' iov off r,
  0 <= count st < 2 ^ 31 ->
  trace (do_iov_loop a K fuel fd fn prot st s)
    = pre ++ EvXfer fd' iov off r :: post ->
  0 < r -> r < requested a iov ->
  post = [] /\
  value (do_iov_loop a K fuel fd fn prot st s)
    = Ret (accumulate a (total st)
             (xfer_results (pre ++ [EvXfer fd' iov off r]))).
Proof.
  induction fuel as [|fuel IH]; intros st s pre post fd' iov off r Hc Htr H0 Hl.
  { destruct pre; discriminate. }
  rewrite do_iov_loop_S, do_iov_body_eq in *. cbv zeta in *.
  pose proof (@gather_checks_only prot
                (user_iovs a K (uiov st)
                   (Z.min (to_size_t a (count st)) batch_size)) [] 0 s) as Hck.
  revert Htr. case_gather; cbn [value final trace].
  2:{ intros Htr. exfalso.
      eapply xfer_not_among_checks; [exact Hck | | exact Htr]. reflexivity. }
  set (iov0 := non_null _) in *.
  set (r0 := fst (fn fd iov0 (offset st) (world s))) in *.
  set (tg := trace _) in *.
  destruct (after_transfer a K st _ (requested a iov0) r0) as [e|st'] eqn:Hat;
    cbn [value final trace]; intros Htr.
  - change (tg ++ [EvXfer fd iov0 (offset st) r0])
      with (tg ++ EvXfer fd iov0 (offset st) r0 :: []) in Htr.
    apply locate_xfer in Htr; [|exact Hck | reflexivity].
    destruct Htr as [(-> & Hx & ->)|(pre' & _ & Hnil)];
      [|destruct pre'; discriminate].
    inversion Hx; subst. split; [reflexivity|].
    rewrite after_transfer_short in Hat by assumption.
    inversion Hat. rewrite xfer_results_app.
    rewrite (xfer_results_checks tg) by exact Hck.
    reflexivity.
  - rewrite <- app_assoc in Htr. simpl in Htr.
    apply after_transfer_continue in Hat; [|exact Hc].
    destruct Hat as (_ & Hlt & _ & Htot & _ & Hge).
    apply locate_xfer in Htr; [|exact Hck | reflexivity].
    destruct Htr as [(_ & Hx & _)|(pre' & -> & Hrest)].
    + inversion Hx; subst. lia.
    + apply IH in Hrest; [|lia | assumption | assumption].
      destruct Hrest as [-> Hval]. split; [reflexivity|].
      rewrite Hval, Htot. rewrite <- !app_assoc, !xfer_results_app.
      rewrite (xfer_results_checks tg) by exact Hck. reflexivity.
Qed.

(** The test [r < l] of the source: if some call of the primitive in a run
    of [do_iov] reports a positive count [r] below the [ssize_t] sum [l] of
    its batch, nothing follows that call but giving the guard back, and the
    value returned is the running total of the results up to and including
    [r]. *)
Theorem short_transfer_ends_call fd u n off fn prot s pre post fd' iov off' r :
  trace (do_iov a K fd u n off fn prot s)
    = pre ++ EvXfer fd' iov off' r :: post ->
  0 < r ->
  r < requested a iov ->
  post = [EvRelease] /\
  value (do_iov a K fd u n off fn prot s)
    = Ret (accumulate a 0 (xfer_results (pre ++ [EvXfer fd' iov off' r]))).
Proof.
  intros Htr H0 Hl.
  destruct (Z_lt_ge_dec n 0) as [Hneg|Hpos];
    [|destruct (Z_le_gt_dec n IOV_MAX) as [Hle|Hgt]].
  - rewrite do_iov_bad_count in Htr by lia. destruct pre; discriminate.
  - assert (Hn : 0 <= n <= IOV_MAX) by lia.
    rewrite (do_iov_eq fd u off fn prot s Hn) in *. cbv zeta in *.
    destruct (k_lock K (world s) <? 0); [destruct pre; discriminate|].
    destruct (k_access_ok K u (sizeof_iovec a * n) PROT_READ).
    2:{ destruct pre as [|? [|? [|? [|? ?]]]]; discriminate. }
    cbn [value trace] in *.
    remember (do_iov_loop a K (iov_fuel n) fd fn prot
                {| uiov := u; count := n; offset := off; total := 0 |}
                {| world := world s; held := S (held s) |}) as o eqn:Ho.
    destruct pre as [|e1 [|e2 pre]]; try discriminate.
    inversion Htr as [[He1 He2 Hrest]]. subst e1 e2.
    apply split_before_last in Hrest; [|discriminate].
    subst o.
    destruct Hrest as (post' & -> & Hloop).
    apply do_iov_loop_short in Hloop;
      [| apply iov_count_small, Hn | assumption | assumption].
    destruct Hloop as [-> Hval]. split; [reflexivity|].
    rewrite Hval. reflexivity.
  - rewrite do_iov_bad_count in Htr by lia. destruct pre; discriminate.
Qed.

(** ** A vector made of one null entry *)

Lemma user_iovs_one u : user_iovs a K u 1 = [read_iovec a K u].
Proof.
  unfold user_iovs. change (Z.to_nat 1) with 1%nat. simpl.
  rewrite Z.add_0_r. reflexivity.
Qed.

Lemma after_transfer_nothing_asked st c r :
  total st = 0 -> r <= 0 ->
  after_transfer a K st c 0 r = Break (Ret r).
Proof.
  intros Ht Hr. unfold after_transfer. rewrite Ht.
  destruct (r =? 0) eqn:H0; [apply Z.eqb_eq in H0; subst; reflexivity|].
  apply Z.eqb_neq in H0.
  replace (r <? 0) with true by (symmetry; apply Z.ltb_lt; lia).
  reflexivity.
Qed.

(** C4 (as the code has it): for a vector of one entry whose pointer is
    null, whatever its length, once the guard is acquired and the
    descriptor array is readable, the primitive is called exactly once, with
    an empty batch and the caller's offset; when it reports [r <= 0] for
    that empty batch, [r] is what the call returns: zero bytes for [r = 0],
    the error of the primitive for [r < 0]. *)
Theorem null_entry_empty_batch fd u off fn prot s r w' :
  0 <= k_lock K (world s) ->
  k_access_ok K u (sizeof_iovec a) PROT_READ = true ->
  iov_base (read_iovec a K u) = 0 ->
  fn fd [] off (world s) = (r, w') ->
  r <= 0 ->
  do_iov a K fd u 1 off fn prot s =
  Out (Ret r) {| world := w'; held := held s |}
      [EvAcquire; EvAccessOk u (sizeof_iovec a) PROT_READ true;
       EvXfer fd [] off r; EvRelease].
Proof.
  intros Hl Hok Hnull Hfn Hr.
  assert (H1 : 0 <= 1 <= IOV_MAX) by (unfold IOV_MAX; lia).
  rewrite (do_iov_eq fd u off fn prot s H1). cbv zeta.
  rewrite Z.mul_1_r, Hok.
  replace (k_lock K (world s) <? 0) with false
    by (symmetry; apply Z.ltb_ge; exact Hl).
  unfold iov_fuel. rewrite do_iov_loop_S, do_iov_body_eq. cbv zeta.
  cbn [count uiov offset total world held].
  rewrite (@to_size_t_small a 1) by lia.
  change (Z.min 1 batch_size) with 1.
  rewrite user_iovs_one.
  assert (Hnn : non_null [read_iovec a K u] = []).
  { unfold non_null. cbn [filter]. rewrite Hnull. reflexivity. }
  rewrite Hnn, Hfn.
  assert (Hg : gather a K prot [read_iovec a K u] [] 0
                 {| world := world s; held := S (held s) |}
               = Out (Some ([], 0)) {| world := world s; held := S (held s) |} []).
  { cbn [gather]. rewrite Hnull. reflexivity. }
  rewrite Hg. cbn [value final trace fst snd].
  change (requested a []) with 0.
  rewrite after_transfer_nothing_asked by (cbn [total]; lia || reflexivity).
  reflexivity.
Qed.

(** ** The single-call wrappers *)

Lemma checks_ok_app t1 t2 : checks_ok (t1 ++ t2) = checks_ok t1 && checks_ok t2.
Proof. apply forallb_app. Qed.

Lemma u_strcheck_ok p max : check_ok (u_strcheck K p max).
Proof.
  split; intros s; simpl.
  - reflexivity.
  - intros op args r [H|[]]; discriminate.
  - intros [H|[]]; discriminate.
  - intros ->. reflexivity.
Qed.

Lemma u_access_ok_ok p len prot : check_ok (u_access_ok K p len prot).
Proof.
  split; intros s; simpl.
  - reflexivity.
  - intros op args r [H|[]]; discriminate.
  - intros [H|[]]; discriminate.
  - intros ->. reflexivity.
Qed.

Lemma u_address_ok p : check_ok (u_address K p).
Proof.
  split; intros s; simpl.
  - reflexivity.
  - intros op args r [H|[]]; discriminate.
  - intros [H|[]]; discriminate.
  - intros ->. reflexivity.
Qed.

Lemma ret_true_ok : @check_ok W (ret true).
Proof.
  split; intros s; simpl.
  - reflexivity.
  - intros op args r [].
  - intros [].
  - discriminate.
Qed.

Lemma data_ok_ok data : check_ok (data_ok K data).
Proof.
  unfold data_ok. destruct (data =? 0); [apply ret_true_ok | apply u_address_ok].
Qed.

Lemma all_ok_nil : @check_ok W (all_ok []).
Proof. apply ret_true_ok. Qed.

Lemma all_ok_cons (c : M W bool) (cs : list (M W bool)) :
  check_ok c -> check_ok (all_ok cs) -> check_ok (all_ok (c :: cs)).
Proof.
  intros Hc Hcs. cbn [all_ok]. unfold bind.
  split; intros s; cbn [value final trace].
  - destruct (value (c s)); cbn [final ret]; rewrite ?(co_final Hcs);
      apply (co_final Hc).
  - intros op args r. rewrite in_app_iff. intros [H|H].
    + eapply (co_nocall Hc), H.
    + destruct (value (c s)); [eapply (co_nocall Hcs), H | destruct H].
  - rewrite in_app_iff. intros [H|H].
    + eapply (co_noacq Hc), H.
    + destruct (value (c s)); [eapply (co_noacq Hcs), H | destruct H].
  - rewrite checks_ok_app.
    destruct (value (c s)) eqn:Hv.
    + intros Hf. rewrite (co_fail Hcs _ Hf). apply andb_false_r.
    + intros _. rewrite (co_fail Hc _ Hv). reflexivity.
Qed.

Lemma call_ok op args : body_ok (call K op args).
Proof.
  split; intros s; unfold call; destruct (k_op K op args (world s)) as [r w'];
    simpl.
  - intros op' args' r' [H|[]]. inversion H. reflexivity.
  - intros _. exists op, args. left. reflexivity.
  - reflexivity.
Qed.

(** [if (!check) return DERR(-EFAULT); body] *)
Lemma checked_ok (c : M W bool) (e : Z) (m : M W Z) :
  check_ok c -> body_ok m ->
  body_ok (bind c (fun ok => if negb ok then ret e else m)).
Proof.
  intros Hc Hm. unfold bind.
  split; intros s; cbn [value final trace]; rewrite ?(co_final Hc).
  - intros op args r. rewrite in_app_iff. intros [H|H].
    + destruct (co_nocall Hc _ _ _ _ H).
    + destruct (value (c s)); cbn [negb] in *; [eapply (bo_pass Hm), H|destruct H].
  - rewrite checks_ok_app. destruct (value (c s)) eqn:Hv; cbn [negb].
    + intros Hok. apply andb_true_iff in Hok. destruct Hok as [_ Hok].
      destruct (bo_call Hm _ Hok) as (op & args & Hin).
      exists op, args. apply in_or_app. right. exact Hin.
    + rewrite (co_fail Hc _ Hv). discriminate.
  - destruct (value (c s)); cbn [negb]; [apply (bo_held Hm) | reflexivity].
Qed.

(** The body under a scoped lock. *)
Lemma locked_ok (m : M W Z) : body_ok m -> wrapper_ok (locked K m) /\ balanced (locked K m).
Proof.
  intros Hm. unfold locked, balanced.
  split; [split|]; intros s; rewrite interruptible_lock_eq; cbv zeta;
    destruct (k_lock K (world s) <? 0); cbn [value final trace held];
    try reflexivity.
  - intros op args r [].
  - intros op args r [H|H]; [discriminate|].
    apply in_app_or in H. destruct H as [H|[H|[]]]; [|discriminate].
    eapply (bo_pass Hm), H.
  - intros [].
  - intros _ Hok.
    change (checks_ok (EvAcquire :: ?t)) with (checks_ok t) in Hok.
    rewrite checks_ok_app in Hok. apply andb_true_iff in Hok.
    destruct Hok as [Hok _].
    destruct (bo_call Hm _ Hok) as (op & args & Hin).
    exists op, args. right. apply in_or_app. left. exact Hin.
  - rewrite (bo_held Hm). reflexivity.
Qed.

(** [if (bad) return DERR(e); wrapper] *)
Lemma prechecked_ok (b : bool) (e : Z) (m : M W Z) :
  wrapper_ok m /\ balanced m ->
  wrapper_ok (if b then ret e else m) /\ balanced (if b then ret e else m).
Proof.
  intros Hm. destruct b; [|exact Hm].
  split; [split|]; intros s; simpl; try tauto.
Qed.

Create HintDb wrappers.
#[local] Hint Resolve u_strcheck_ok u_access_ok_ok data_ok_ok all_ok_nil
  all_ok_cons call_ok checked_ok locked_ok prechecked_ok : wrappers.

Lemma body_as_wrapper (m : M W Z) : body_ok m -> wrapper_ok m /\ balanced m.
Proof.
  intros Hm. split; [split|]; intros s.
  - apply (bo_pass Hm).
  - intros _. apply (bo_call Hm).
  - apply (bo_held Hm).
Qed.

Lemma lift_ok (m : M W Z) s :
  wrapper_ok m ->
  passes_through (lift m s) /\ calls_when_valid (lift m s).
Proof.
  intros Hm. unfold passes_through, calls_when_valid, lift, bind.
  cbn [value final trace ret]. rewrite app_nil_r. split.
  - intros op args r Hin. f_equal. eapply (wo_pass Hm), Hin.
  - intros Ha Hc. destruct (wo_call Hm _ Ha Hc) as (op & args & Hin).
    exists op, args, (value (m s)). split; [exact Hin | reflexivity].
Qed.

Lemma lift_balanced (m : M W Z) : balanced m -> balanced (lift m).
Proof. intros Hm s. unfold lift, bind. cbn [final ret]. apply Hm. Qed.

(** Case analysis on everything a wrapper asks of its collaborators, for
    the two wrappers that pin the address space by hand. *)
Ltac wrapper_cases :=
  unfold u_access_begin, u_access_end;
  unfold bind, acquire, release, u_access_ok, call, ret; cbv zeta;
  repeat (cbn [value final trace world held negb app fst snd];
          match goal with
          | |- context [let (_, _) := ?p in _] => destruct p eqn:?
          | |- context [if negb ?b then _ else _] =>
              lazymatch b with
              | context [if _ then _ else _] => fail
              | context [let (_, _) := _ in _] => fail
              | _ => destruct b eqn:?
              end
          | |- context [if ?b then _ else _] =>
              lazymatch b with
              | context [if _ then _ else _] => fail
              | context [let (_, _) := _ in _] => fail
              | _ => destruct b eqn:?
              end
          end);
  cbn [value final trace world held negb app fst snd]; try congruence.

Ltac in_trace H :=
  cbn [In] in H;
  repeat (destruct H as [H|H]; [try discriminate H|]);
  try contradiction.

Lemma sc_fcntl_ok fd cmd arg : wrapper_ok (sc_fcntl hdr K fd cmd arg).
Proof.
  split; intros s; unfold sc_fcntl; wrapper_cases.
  all: try (intros op args r Hin; in_trace Hin; inversion Hin; reflexivity).
  all: try (intros Hin; in_trace Hin; fail).
  all: try (intros _ Hc; discriminate Hc).
  all: intros _ _; do 2 eexists; cbn [In]; eauto 6.
Qed.

Lemma sc_ioctl_ok fd request argp : wrapper_ok (sc_ioctl hdr K fd request argp).
Proof.
  split; intros s; unfold sc_ioctl; cbv zeta; wrapper_cases.
  all: try (intros op args r Hin; in_trace Hin; inversion Hin; reflexivity).
  all: try (intros Hin; in_trace Hin; fail).
  all: try (intros _ Hc; discriminate Hc).
  all: intros _ _; do 2 eexists; cbn [In]; eauto 6.
Qed.

Ltac unfold_wrapper :=
  unfold sc_access, sc_chdir, sc_chmod, sc_chown, sc_lchown, sc_mkdir,
    sc_mknod, sc_open, sc_pipe, sc_rename, sc_symlink, sc_unlink,
    sc_readlink;
  unfold sc_faccessat, sc_fchmodat, sc_fchownat, sc_fstat, sc_fstatat,
    sc_fstatfs, sc_getdents, sc_mkdirat, sc_mknodat, sc_mount, sc_openat,
    sc_pipe2, sc_renameat, sc_rmdir, sc_stat, sc_statfs, sc_symlinkat,
    sc_umount2, sc_unlinkat, sc_utimensat, sc_pread, sc_pwrite, sc_read,
    sc_readlinkat, sc_write.

(** Every wrapper that is a scoped lock around checks and one call. *)
Ltac wrapper_by_parts := unfold_wrapper; auto 12 with wrappers.

Lemma verbatim_wrapper_ok sc s :
  verbatim sc = true ->
  passes_through (run a hdr K sc s) /\ calls_when_valid (run a hdr K sc s).
Proof.
  intros Hv. destruct sc; try discriminate Hv; clear Hv; cbn [run];
    apply lift_ok;
    try apply sc_fcntl_ok; try apply sc_ioctl_ok;
    match goal with
    | |- wrapper_ok ?m =>
        assert (Hw : wrapper_ok m /\ balanced m) by wrapper_by_parts;
        exact (proj1 Hw)
    end.
Qed.

(** [sc_llseek] when [lseek] succeeds. *)
Lemma sc_llseek_success fd off0 off1 result whence s r w' :
  0 <= k_lock K (world s) ->
  k_access_ok K result sizeof_off_t PROT_WRITE = true ->
  k_op K Lseek [fd; off_t_of_halves off0 off1; whence] (world s) = (r, w') ->
  0 <= r ->
  sc_llseek K fd off0 off1 result whence s =
  Out 0 {| world := w'; held := held s |}
      [EvAcquire; EvAccessOk result sizeof_off_t PROT_WRITE true;
       EvCall Lseek [fd; off_t_of_halves off0 off1; whence] r;
       EvStore result r; EvRelease].
Proof.
  intros Hl Hok Hop Hr. unfold sc_llseek, locked.
  rewrite interruptible_lock_eq.
  replace (k_lock K (world s) <? 0) with false
    by (symmetry; apply Z.ltb_ge; exact Hl).
  unfold bind, u_access_ok, call, store, emit, ret. cbn [value final trace world].
  rewrite Hok. cbn [negb value final trace world held].
  rewrite Hop. cbn [value final trace world held].
  replace (r <? 0) with false by (symmetry; apply Z.ltb_ge; exact Hr).
  reflexivity.
Qed.

(** C7 (as the code has it): every wrapper that is one call into the file
    system behind checks -- all of them but [sc_llseek], [sc_getcwd] and the
    four vectored calls -- returns the routine's result unchanged whenever it
    calls the routine, and does call it once the guard is acquired and no
    argument check fails.  [sc_llseek] turns a non-negative result of [lseek]
    into a store through [result] and the value 0. *)
Theorem single_call_result_verbatim :
  (forall sc s,
      verbatim sc = true ->
      passes_through (run a hdr K sc s) /\
      calls_when_valid (run a hdr K sc s)) /\
  (forall fd off0 off1 result whence s r w',
      0 <= k_lock K (world s) ->
      k_access_ok K result sizeof_off_t PROT_WRITE = true ->
      k_op K Lseek [fd; off_t_of_halves off0 off1; whence] (world s) = (r, w') ->
      0 <= r ->
      sc_llseek K fd off0 off1 result whence s =
      Out 0 {| world := w'; held := held s |}
          [EvAcquire; EvAccessOk result sizeof_off_t PROT_WRITE true;
           EvCall Lseek [fd; off_t_of_halves off0 off1; whence] r;
           EvStore result r; EvRelease]).
Proof.
  split.
  - intros sc s Hv. apply verbatim_wrapper_ok, Hv.
  - intros fd off0 off1 result whence s r w' Hl Hok Hop Hr.
    apply sc_llseek_success; assumption.
Qed.

(** ** The guard *)

Lemma do_iov_balanced fd u n off fn prot :
  balanced (do_iov a K fd u n off fn prot).
Proof.
  intros s. unfold do_iov.
  destruct ((n <? 0) || (n >? IOV_MAX)); [reflexivity|].
  rewrite interruptible_lock_eq.
  destruct (k_lock K (world s) <? 0); [reflexivity|].
  cbv zeta. cbn [final held]. unfold bind, u_access_ok. cbn [value final trace].
  destruct (k_access_ok K u _ PROT_READ); cbn [negb final ret held];
    [|reflexivity].
  rewrite do_iov_loop_held. reflexivity.
Qed.

Lemma locked_balanced (m : M W Z) : balanced m -> balanced (locked K m).
Proof.
  intros Hm s. unfold locked. rewrite interruptible_lock_eq.
  destruct (k_lock K (world s) <? 0); [reflexivity|].
  cbv zeta. cbn [final held]. rewrite Hm. reflexivity.
Qed.

Lemma sc_getcwd_balanced buf len : balanced (sc_getcwd a K buf len).
Proof.
  unfold sc_getcwd. apply locked_balanced. intros s.
  unfold bind, u_access_ok, call, ret. cbn [value final trace].
  destruct (k_access_ok K buf len PROT_WRITE); cbn [negb final]; [|reflexivity].
  destruct (k_op K Getcwd [buf; len] (world s)) as [p w'].
  cbn [value final]. destruct (_ >? _); reflexivity.
Qed.

Lemma sc_llseek_balanced fd off0 off1 result whence :
  balanced (sc_llseek K fd off0 off1 result whence).
Proof.
  unfold sc_llseek. apply locked_balanced. intros s.
  unfold bind, u_access_ok, call, store, emit, ret. cbn [value final trace].
  destruct (k_access_ok K result sizeof_off_t PROT_WRITE); cbn [negb final];
    [|reflexivity].
  destruct (k_op K Lseek _ (world s)) as [r w'].
  cbn [value final]. destruct (r <? 0); reflexivity.
Qed.

(** Every wrapper whose guard is a scoped lock gives back what it took, on
    every way out. *)
Lemma scoped_wrappers_balanced sc :
  scoped sc = true -> balanced (run a hdr K sc).
Proof.
  intros Hs. destruct sc; try discriminate Hs; clear Hs; cbn [run];
    lazymatch goal with
    | |- balanced (sc_readv _ _ _ _ _) => apply do_iov_balanced
    | |- balanced (sc_writev _ _ _ _ _) => apply do_iov_balanced
    | |- balanced (sc_preadv _ _ _ _ _ _ _) =>
        unfold sc_preadv; cbv zeta; destruct (vec_offset a _ _ <? 0);
        [intros s; reflexivity | apply do_iov_balanced]
    | |- balanced (sc_pwritev _ _ _ _ _ _ _) =>
        unfold sc_pwritev; cbv zeta; destruct (vec_offset a _ _ <? 0);
        [intros s; reflexivity | apply do_iov_balanced]
    | |- balanced (lift (sc_getcwd _ _ _ _)) =>
        apply lift_balanced, sc_getcwd_balanced
    | |- balanced (lift (sc_llseek _ _ _ _ _ _)) =>
        apply lift_balanced, sc_llseek_balanced
    | |- balanced (lift ?m) =>
        apply lift_balanced;
        assert (Hw : wrapper_ok m /\ balanced m) by wrapper_by_parts;
        exact (proj2 Hw)
    end.
Qed.

(** [sc_ioctl] on a request that reads or writes user memory pins the
    address space and, whenever the pin succeeds, returns with it in
    place. *)
Lemma sc_ioctl_keeps_pin fd request argp s :
  _IOC_DIR hdr request = _IOC_READ hdr \/ _IOC_DIR hdr request = _IOC_WRITE hdr ->
  0 <= k_lock K (world s) ->
  held (final (sc_ioctl hdr K fd request argp s)) = S (held s).
Proof.
  intros Hdir Hl. unfold sc_ioctl. cbv zeta.
  replace ((_IOC_DIR hdr request =? _IOC_READ hdr)
           || (_IOC_DIR hdr request =? _IOC_WRITE hdr)) with true.
  2:{ symmetry. apply orb_true_iff. rewrite !Z.eqb_eq. exact Hdir. }
  unfold u_access_begin, bind, acquire, u_access_ok, call, ret. cbv zeta.
  replace (k_lock K (world s) <? 0) with false
    by (symmetry; apply Z.ltb_ge; exact Hl).
  cbn [value final trace].
  replace (k_lock K (world s) <? 0) with false
    by (symmetry; apply Z.ltb_ge; exact Hl).
  destruct (k_access_ok K argp _ _); cbn [negb value final trace held world];
    [|reflexivity].
  destruct (k_op K Ioctl _ (world s)) as [r w']. reflexivity.
Qed.

(** [sc_fcntl] on a record-lock command returns with the pin in place when
    the argument fails validation. *)
Lemma sc_fcntl_keeps_pin_on_fault fd cmd arg s :
  is_flock_cmd hdr cmd = true ->
  0 <= k_lock K (world s) ->
  k_access_ok K arg (sizeof_flock hdr) PROT_WRITE = false ->
  sc_fcntl hdr K fd cmd arg s =
  Out (- EFAULT) {| world := world s; held := S (held s) |}
      [EvAcquire; EvAccessOk arg (sizeof_flock hdr) PROT_WRITE false].
Proof.
  intros Hcmd Hl Hbad. unfold sc_fcntl. rewrite Hcmd.
  unfold u_access_begin, bind, acquire, u_access_ok, ret. cbv zeta.
  replace (k_lock K (world s) <? 0) with false
    by (symmetry; apply Z.ltb_ge; exact Hl).
  cbn [value final trace].
  replace (k_lock K (world s) <? 0) with false
    by (symmetry; apply Z.ltb_ge; exact Hl).
  rewrite Hbad. reflexivity.
Qed.

(** A batch that fails validation ends the call with [-EFAULT], whatever
    has been transferred before. *)
Lemma do_iov_body_fault fd fn prot st s :
  value (gather a K prot
           (user_iovs a K (uiov st)
              (Z.min (to_size_t a (count st)) batch_size)) [] 0 s) = None ->
  value (do_iov_body a K fd fn prot st s) = Break (Ret (- EFAULT)).
Proof.
  intros Hg. rewrite do_iov_body_eq. cbv zeta. rewrite Hg. reflexivity.
Qed.

End Properties.

(** * The wrappers at work *)

Lemma full_xfer_bounded (a : arch) : bounded_by_request a (full_xfer a).
Proof. intros fd iov off w. apply Z.le_refl. Qed.

(** C1: seventeen segments, sixteen bytes transferred by the first batch,
    the seventeenth segment unmapped.  The call ends with [-EFAULT]; the
    sixteen bytes do not show in what it returns. *)
Theorem later_fault_returns_efault :
  xfer_results (trace fault_after_transfer) = [16] /\
  value fault_after_transfer = Ret (- EFAULT).
Proof. vm_compute. split; reflexivity. Qed.

(** C5: sixteen segments whose lengths add up to [2^32 + 12] make the
    32-bit sum [l] of the batch come out as 12.  A transfer of 100 bytes,
    far below what was asked for, is then not seen as short: with assertions
    compiled in, [assert(r == l)] fails; without them a second batch is
    transferred and the call returns 101. *)
Theorem short_transfer_goes_unnoticed :
  sum_len huge_first_batch = 2 ^ 32 + 12 /\
  requested ILP32 huge_first_batch = 12 /\
  hd [] (xfer_batches (trace huge_unchecked)) = huge_first_batch /\
  xfer_results (trace huge_unchecked) = [100; 1] /\
  value huge_unchecked = Ret 101 /\
  value huge_checked = AssertFailed.
Proof. vm_compute. repeat split; reflexivity. Qed.

(** C2: [sc_ioctl] on a read request returns the driver's answer with the
    address space still pinned, and [sc_fcntl] on [F_GETLK] returns
    [-EFAULT] for a bad argument with the address space still pinned;
    neither trace has a release. *)
Theorem ioctl_fcntl_return_pinned :
  (value ioctl_read = 5 /\
   held (final ioctl_read) = 1%nat /\
   ~ In EvRelease (trace ioctl_read)) /\
  (value fcntl_bad_arg = - EFAULT /\
   held (final fcntl_bad_arg) = 1%nat /\
   ~ In EvRelease (trace fcntl_bad_arg)).
Proof.
  vm_compute. repeat split; try reflexivity;
    intros H; repeat (destruct H as [H|H]; [discriminate H|]); exact H.
Qed.

Lemma do_iov_within_segments_witness :
  bounded_by_length (full_xfer ILP32) /\
  forall v,
    value (do_iov ILP32 plain20 3 1000 20 (-1) (full_xfer ILP32) PROT_WRITE
             (start [])) = Ret v ->
    v <= sum_len (non_null (user_iovs ILP32 plain20 1000 20)).
Proof.
  assert (H : bounded_by_length (full_xfer ILP32))
    by (apply (@request_within_length script ILP32), full_xfer_bounded).
  split; [exact H|].
  exact (proj1 (@do_iov_within_segments script ILP32 plain20 3 1000 20 (-1)
                  (full_xfer ILP32) PROT_WRITE (start []) H)).
Defined.

(** Scenario B as the code runs it: the primitive is called, with an empty
    batch. *)
Lemma scenario_B_calls_primitive : ~ scenario_B_expected scenario_B.
Proof. intros (_ & Hr & _). vm_compute in Hr. discriminate Hr. Qed.

Lemma null_entry_empty_batch_witness :
  0 <= k_lock null1 (world (start [])) /\
  k_access_ok null1 1000 (sizeof_iovec ILP32) PROT_READ = true /\
  iov_base (read_iovec ILP32 null1 1000) = 0 /\
  k_preadv null1 3 [] (-1) (world (start [])) = (0, []) /\
  0 <= 0 /\
  scenario_B =
  Out (Ret 0) {| world := []; held := held (start []) |}
      [EvAcquire; EvAccessOk 1000 (sizeof_iovec ILP32) PROT_READ true;
       EvXfer 3 [] (-1) 0; EvRelease].
Proof.
  assert (H1 : 0 <= k_lock null1 (world (start []))) by (simpl; lia).
  assert (H2 : k_access_ok null1 1000 (sizeof_iovec ILP32) PROT_READ = true)
    by reflexivity.
  assert (H3 : iov_base (read_iovec ILP32 null1 1000) = 0) by reflexivity.
  assert (H4 : k_preadv null1 3 [] (-1) (world (start [])) = (0, []))
    by reflexivity.
  assert (H5 : 0 <= 0) by lia.
  exact (conj H1 (conj H2 (conj H3 (conj H4 (conj H5
           (@null_entry_empty_batch script ILP32 null1 3 1000 (-1)
              (k_preadv null1) PROT_WRITE (start []) 0 [] H1 H2 H3 H4 H5)))))).
Defined.

Lemma short_transfer_ends_call_witness :
  trace short_first_batch
    = firstn 18 (trace short_first_batch)
      ++ EvXfer 3 sixteen_segments (-1) 5 :: [EvRelease] /\
  0 < 5 /\
  5 < requested ILP32 sixteen_segments /\
  value short_first_batch = Ret 5.
Proof.
  assert (H1 : trace short_first_batch
               = firstn 18 (trace short_first_batch)
                 ++ EvXfer 3 sixteen_segments (-1) 5 :: [EvRelease])
    by (vm_compute; reflexivity).
  assert (H2 : 0 < 5) by lia.
  assert (H3 : 5 < requested ILP32 sixteen_segments)
    by (vm_compute; reflexivity).
  exact (conj H1 (conj H2 (conj H3
           (proj2 (@short_transfer_ends_call script ILP32 plain20 3 1000 20
                     (-1) (k_preadv plain20) PROT_WRITE (start [5; 4])
                     (firstn 18 (trace short_first_batch)) [EvRelease] 3
                     sixteen_segments (-1) 5 H1 H2 H3))))).
Defined.

(** Scenario A: twenty segments, the first batch of sixteen transferred in
    full, two of the four bytes of the second batch: eighteen bytes, no
    error, two calls of the primitive. *)
Example scenario_A_result :
  value scenario_A = Ret 18 /\ xfer_results (trace scenario_A) = [16; 2].
Proof. vm_compute. split; reflexivity. Qed.

Lemma bad_count_is_einval_witness :
  (1025 < 0 \/ IOV_MAX < 1025) /\
  sc_readv ILP32 plain20 3 1000 1025 (start []) =
  Out (Ret (- EINVAL)) (start []) [].
Proof.
  assert (H : 1025 < 0 \/ IOV_MAX < 1025) by (right; unfold IOV_MAX; lia).
  split; [exact H|].
  exact (proj1 (proj2 (@bad_count_is_einval script ILP32 plain20 3 1000 1025
                         (-1) 0 0 (k_preadv plain20) PROT_WRITE (start []) H))).
Defined.

(** [lseek] answers 100; [sc_llseek] returns 0. *)
Lemma llseek_result_not_returned : ~ passes_through llseek_to_100.
Proof.
  intros H.
  specialize (H Lseek [3; 0; 0] 100). vm_compute in H.
  assert (Hr : Ret 0 = Ret 100) by (apply H; right; right; left; reflexivity).
  discriminate Hr.
Qed.

(** What [sc_llseek] makes of a failing [lseek]: [-EBADF] comes back as -1. *)
Example llseek_error_is_minus_one : value llseek_ebadf = Ret (-1).
Proof. reflexivity. Qed.

Lemma single_call_result_verbatim_witness :
  (verbatim (SC_chdir 4000) = true /\
   passes_through (run ILP32 demo_hdr plain20 (SC_chdir 4000) (start [7])) /\
   calls_when_valid (run ILP32 demo_hdr plain20 (SC_chdir 4000) (start [7]))) /\
  (0 <= k_lock plain20 (world (start [100])) /\
   k_access_ok plain20 4000 sizeof_off_t PROT_WRITE = true /\
   k_op plain20 Lseek [3; off_t_of_halves 0 0; 0] (world (start [100]))
     = (100, []) /\
   0 <= 100 /\
   sc_llseek plain20 3 0 0 4000 0 (start [100]) =
   Out 0 {| world := []; held := held (start [100]) |}
       [EvAcquire; EvAccessOk 4000 sizeof_off_t PROT_WRITE true;
        EvCall Lseek [3; off_t_of_halves 0 0; 0] 100;
        EvStore 4000 100; EvRelease]).
Proof.
  assert (H1 : verbatim (SC_chdir 4000) = true) by reflexivity.
  assert (H2 : 0 <= k_lock plain20 (world (start [100]))) by (simpl; lia).
  assert (H3 : k_access_ok plain20 4000 sizeof_off_t PROT_WRITE = true)
    by reflexivity.
  assert (H4 : k_op plain20 Lseek [3; off_t_of_halves 0 0; 0]
                 (world (start [100])) = (100, [])) by reflexivity.
  assert (H5 : 0 <= 100) by lia.
  pose proof (@single_call_result_verbatim script ILP32 demo_hdr plain20)
    as [Hverb Hseek].
  exact (conj (conj H1 (Hverb (SC_chdir 4000) (start [7]) H1))
              (conj H2 (conj H3 (conj H4 (conj H5
                 (Hseek 3 0 0 4000 0 (start [100]) 100 [] H2 H3 H4 H5)))))).
Defined.

Lemma negative_offset_is_einval_witness :
  -1 < 0 /\
  vec_offset ILP32 (-1) 0 < 0 /\
  sc_pread plain20 3 5000 10 (-1) (start []) = Out (- EINVAL) (start []) [].
Proof.
  assert (H1 : -1 < 0) by lia.
  assert (H2 : vec_offset ILP32 (-1) 0 < 0) by (vm_compute; reflexivity).
  exact (conj H1 (conj H2
           (proj1 (@negative_offset_is_einval script ILP32 plain20 3 5000 10
                     (-1) 1000 1 (-1) 0 (start []) H1 H2)))).
Defined.

Lemma unprivileged_mount_is_eperm_witness :
  task_capable unprivileged (CAP_ADMIN demo_hdr) = false /\
  sc_mount demo_hdr unprivileged 4000 4100 4200 0 0 (start [])
    = Out (- EPERM) (start []) [].
Proof.
  assert (H : task_capable unprivileged (CAP_ADMIN demo_hdr) = false)
    by reflexivity.
  split; [exact H|].
  exact (proj1 (@unprivileged_mount_is_eperm script demo_hdr unprivileged
                  4000 4100 4200 0 0 (start []) H)).
Defined.


(** * More of the wrappers' behaviour *)

Section WrapperProtocol.

Variable W : Type.
Variable a : arch.
Variable hdr : headers.
Variable K : kernel W.

Lemma only_checks_app t1 t2 :
  only_checks (t1 ++ t2) = only_checks t1 && only_checks t2.
Proof. apply forallb_app. Qed.

Lemma inner_app t1 t2 : inner (t1 ++ t2) = inner t1 && inner t2.
Proof. apply forallb_app. Qed.

Lemma no_call_or_store_app t1 t2 : no_call_or_store (t1 ++ t2) = no_call_or_store t1 && no_call_or_store t2.
Proof. apply forallb_app. Qed.

Lemma only_checks_inner tr : only_checks tr = true -> inner tr = true.
Proof.
  unfold only_checks, inner. rewrite !forallb_forall.
  intros H e He. specialize (H e He). destruct e; try discriminate; reflexivity.
Qed.

Lemma only_checks_no_call_or_store tr : only_checks tr = true -> no_call_or_store tr = true.
Proof.
  unfold only_checks, no_call_or_store. rewrite !forallb_forall.
  intros H e He. specialize (H e He). destruct e; try discriminate; reflexivity.
Qed.

(** ** Argument checks *)

Lemma one_check_validation (c : M W bool) :
  (forall s, exists e, c s = Out (checks_ok [e]) s [e] /\ is_check e = true) ->
  validation c.
Proof.
  intros H. split; intros s; destruct (H s) as (e & -> & He);
    cbn [value final trace].
  - reflexivity.
  - unfold only_checks. cbn [forallb]. rewrite He. reflexivity.
  - reflexivity.
  - intros Hf. exists [], e. repeat split. exact Hf.
Qed.

Lemma u_strcheck_validation p max : validation (u_strcheck K p max).
Proof.
  apply one_check_validation. intros s.
  exists (EvStrcheck p max (k_strcheck K p max)). split; [|reflexivity].
  unfold u_strcheck. cbv zeta. unfold checks_ok. cbn [forallb].
  rewrite andb_true_r. reflexivity.
Qed.

Lemma u_access_ok_validation p len prot : validation (u_access_ok K p len prot).
Proof.
  apply one_check_validation. intros s.
  exists (EvAccessOk p len prot (k_access_ok K p len prot)). split; [|reflexivity].
  unfold u_access_ok. cbv zeta. unfold checks_ok. cbn [forallb].
  rewrite andb_true_r. reflexivity.
Qed.

Lemma u_address_validation p : validation (u_address K p).
Proof.
  apply one_check_validation. intros s.
  exists (EvAddress p (k_address K p)). split; [|reflexivity].
  unfold u_address. cbv zeta. unfold checks_ok. cbn [forallb].
  rewrite andb_true_r. reflexivity.
Qed.

Lemma ret_true_validation : @validation W (ret true).
Proof.
  split; intros s; cbn [ret value final trace]; try reflexivity. discriminate.
Qed.

Lemma data_ok_validation data : validation (data_ok K data).
Proof.
  unfold data_ok. destruct (data =? 0);
    [apply ret_true_validation | apply u_address_validation].
Qed.

Lemma all_ok_nil_validation : @validation W (all_ok []).
Proof. apply ret_true_validation. Qed.

Lemma all_ok_cons_validation (c : M W bool) (cs : list (M W bool)) :
  validation c -> validation (all_ok cs) -> validation (all_ok (c :: cs)).
Proof.
  intros Hc Hcs. cbn [all_ok]. unfold bind.
  split; intros s; cbn [value final trace]; rewrite (va_final Hc);
    pose proof (va_value Hc s) as Hv; pose proof (va_only Hc s) as Ho;
    destruct (value (c s)) eqn:Hval; cbn [ret value final trace];
    rewrite ?app_nil_r.
  - apply (va_final Hcs).
  - reflexivity.
  - rewrite only_checks_app, Ho. apply (va_only Hcs).
  - exact Ho.
  - rewrite checks_ok_app, <- Hv. apply (va_value Hcs).
  - exact Hv.
  - intros Hf. destruct (va_stop Hcs _ Hf) as (pre & e & Ht & Hp & He).
    exists (trace (c s) ++ pre), e. rewrite Ht, app_assoc.
    repeat split; [|exact He]. rewrite checks_ok_app, <- Hv. exact Hp.
  - intros _. destruct (va_stop Hc _ Hval) as (pre & e & Ht & Hp & He).
    exists pre, e. repeat split; assumption.
Qed.

(** ** Under the guard *)

Lemma call_under_guard (fault : Z) op args : under_guard fault (call K op args).
Proof.
  split; intros s; unfold call; destruct (k_op K op args (world s)) as [r w'];
    cbn [value final trace held]; try reflexivity.
  discriminate.
Qed.

(** [if (!check) return fault; rest] *)
Lemma checked_under_guard (A : Type) (fault : A) (c : M W bool) (m : M W A) :
  validation c -> under_guard fault m ->
  under_guard fault (bind c (fun ok => if negb ok then ret fault else m)).
Proof.
  intros Hc Hm. unfold bind.
  split; intros s; cbn [value final trace]; rewrite (va_final Hc);
    pose proof (va_value Hc s) as Hv; pose proof (va_only Hc s) as Ho;
    destruct (value (c s)) eqn:Hval; cbn [negb ret value final trace];
    rewrite ?app_nil_r.
  - rewrite inner_app, (only_checks_inner _ Ho). apply (ug_inner Hm).
  - apply only_checks_inner, Ho.
  - apply (ug_held Hm).
  - reflexivity.
  - rewrite checks_ok_app, <- Hv. cbn [andb]. intros Hf.
    destruct (ug_fault Hm _ Hf) as (Hval' & pre & e & Ht & Hp & He & Hu).
    split; [exact Hval'|].
    exists (trace (c s) ++ pre), e. rewrite Ht, app_assoc.
    repeat split; [| exact He |].
    + rewrite checks_ok_app, <- Hv. exact Hp.
    + rewrite no_call_or_store_app, (only_checks_no_call_or_store _ Ho). exact Hu.
  - intros _. split; [reflexivity|].
    destruct (va_stop Hc _ Hval) as (pre & e & Ht & Hp & He).
    exists pre, e. repeat split; try assumption.
    apply only_checks_no_call_or_store. rewrite Ht, only_checks_app in Ho.
    apply andb_true_iff in Ho. tauto.
Qed.

(** What follows the checks and performs none itself. *)
Lemma unchecked_under_guard (A : Type) (fault : A) (m : M W A) :
  (forall s, inner (trace (m s)) = true /\
             held (final (m s)) = held s /\
             checks_ok (trace (m s)) = true) ->
  under_guard fault m.
Proof.
  intros H. split; intros s; destruct (H s) as (Hi & Hh & Hc); try assumption.
  rewrite Hc. discriminate.
Qed.

(** ** The scoped lock around it *)

Lemma lock_protocol (A : Type) (inj : Z -> A) (fault : A) (body : M W A) :
  under_guard fault body -> protocol fault (interruptible_lock K inj body).
Proof.
  intros Hb. split; intros s; rewrite interruptible_lock_eq; cbv zeta;
    destruct (k_lock K (world s) <? 0); cbn [value final trace].
  - left. split; reflexivity.
  - right. eexists. split; [reflexivity | apply (ug_inner Hb)].
  - discriminate.
  - change (checks_ok (EvAcquire :: ?t)) with (checks_ok t).
    rewrite checks_ok_app. cbn [checks_ok forallb]. rewrite andb_true_r.
    intros Hf.
    destruct (ug_fault Hb _ Hf) as (Hval & pre & e & Ht & Hp & He & Hu).
    split; [exact Hval|]. exists pre, e.
    rewrite Ht, <- app_assoc. repeat split; assumption.
Qed.

Lemma locked_protocol (fault : Z) (body : M W Z) :
  under_guard fault body -> protocol fault (locked K body).
Proof. apply lock_protocol. Qed.

(** [if (bad) return DERR(e); wrapper] *)
Lemma prechecked_protocol (A : Type) (fault : A) (b : bool) (e : A) (m : M W A) :
  protocol fault m -> protocol fault (if b then ret e else m).
Proof.
  intros Hm. destruct b; [|exact Hm].
  split; intros s; cbn [ret value final trace].
  - left. split; reflexivity.
  - discriminate.
Qed.

Lemma lift_protocol (fault : Z) (m : M W Z) :
  protocol fault m -> protocol (Ret fault) (lift m).
Proof.
  intros Hm. unfold lift, bind.
  split; intros s; cbn [ret value final trace]; rewrite app_nil_r.
  - apply (pr_bracket Hm).
  - intros Hf. destruct (pr_fault Hm _ Hf) as (Hv & Hrest).
    split; [rewrite Hv; reflexivity | exact Hrest].
Qed.

(** ** The batch loop under the guard *)

Lemma gather_shape prot ents : forall iov l s,
  only_checks (trace (gather a K prot ents iov l s)) = true /\
  match value (gather a K prot ents iov l s) with
  | Some _ => checks_ok (trace (gather a K prot ents iov l s)) = true
  | None =>
      exists pre e,
        trace (gather a K prot ents iov l s) = pre ++ [e] /\
        checks_ok pre = true /\ checks_ok [e] = false
  end.
Proof.
  induction ents as [|x rest IH]; intros iov l s; cbn [gather].
  - split; reflexivity.
  - destruct (iov_base x =? 0); [apply IH|].
    unfold bind, u_access_ok. cbn [value final trace].
    destruct (k_access_ok K (iov_base x) (iov_len x) prot) eqn:Hok;
      cbn [negb ret value final trace].
    + specialize (IH (iov ++ [x]) (to_ssize_t a (l + iov_len x)) s).
      destruct IH as [Ho Hv]. split; [exact Ho|].
      destruct (value (gather a K prot rest (iov ++ [x])
                         (to_ssize_t a (l + iov_len x)) s)).
      * exact Hv.
      * destruct Hv as (pre & e & Ht & Hp & He).
        eexists (_ :: pre), e. rewrite Ht. repeat split; assumption.
    + split; [reflexivity|]. eexists [], _. repeat split.
Qed.

Ltac on_gather :=
  match goal with
  | |- context [value (gather ?a ?K ?p ?e ?i ?l ?s)] =>
      destruct (value (gather a K p e i l s)) as [?g|] eqn:?Hg
  end.

Lemma do_iov_body_shape fd fn prot st s :
  inner (trace (do_iov_body a K fd fn prot st s)) = true /\
  no_call_or_store (trace (do_iov_body a K fd fn prot st s)) = true /\
  (checks_ok (trace (do_iov_body a K fd fn prot st s)) = false ->
   value (do_iov_body a K fd fn prot st s) = Break (Ret (- EFAULT)) /\
   exists pre e,
     trace (do_iov_body a K fd fn prot st s) = pre ++ [e] /\
     checks_ok pre = true /\ checks_ok [e] = false).
Proof.
  rewrite do_iov_body_eq. cbv zeta.
  destruct (gather_shape prot
              (user_iovs a K (uiov st)
                 (Z.min (to_size_t a (count st)) batch_size)) [] 0 s)
    as [Ho Hv].
  on_gather; cbn [value final trace].
  - rewrite inner_app, no_call_or_store_app, checks_ok_app,
      (only_checks_inner _ Ho), (only_checks_no_call_or_store _ Ho), Hv.
    split; [reflexivity | split; [reflexivity | intros H; discriminate H]].
  - rewrite (only_checks_inner _ Ho), (only_checks_no_call_or_store _ Ho).
    split; [reflexivity | split; [reflexivity|]].
    intros _. split; [reflexivity | exact Hv].
Qed.

Lemma do_iov_loop_shape fd fn prot fuel : forall st s,
  inner (trace (do_iov_loop a K fuel fd fn prot st s)) = true /\
  no_call_or_store (trace (do_iov_loop a K fuel fd fn prot st s)) = true /\
  (checks_ok (trace (do_iov_loop a K fuel fd fn prot st s)) = false ->
   value (do_iov_loop a K fuel fd fn prot st s) = Ret (- EFAULT) /\
   exists pre e,
     trace (do_iov_loop a K fuel fd fn prot st s) = pre ++ [e] /\
     checks_ok pre = true /\ checks_ok [e] = false).
Proof.
  induction fuel as [|fuel IH]; intros st s.
  { split; [reflexivity | split; [reflexivity | intros H; discriminate H]]. }
  rewrite do_iov_loop_S. cbv zeta.
  destruct (do_iov_body_shape fd fn prot st s) as (Hi & Hu & Hf).
  destruct (value (do_iov_body a K fd fn prot st s)) as [e|st'] eqn:Hv;
    cbn [value final trace].
  - split; [exact Hi | split; [exact Hu|]].
    intros Hc. destruct (Hf Hc) as [Heq Hrest].
    split; [congruence | exact Hrest].
  - destruct (IH st' (final (do_iov_body a K fd fn prot st s)))
      as (Hi' & Hu' & Hf').
    rewrite inner_app, no_call_or_store_app, checks_ok_app, Hi, Hu.
    split; [exact Hi' | split; [exact Hu'|]].
    destruct (checks_ok (trace (do_iov_body a K fd fn prot st s))) eqn:Hc.
    + cbn [andb]. intros Hc'.
      destruct (Hf' Hc') as (Hval & pre & e & Ht & Hp & He).
      split; [exact Hval|].
      exists (trace (do_iov_body a K fd fn prot st s) ++ pre), e.
      rewrite Ht, app_assoc, checks_ok_app, Hc.
      split; [reflexivity | split; assumption].
    + destruct (Hf eq_refl) as [Heq _]. discriminate Heq.
Qed.

Lemma do_iov_loop_under_guard fd fn prot fuel st :
  under_guard (Ret (- EFAULT)) (do_iov_loop a K fuel fd fn prot st).
Proof.
  split; intros s; destruct (do_iov_loop_shape fd fn prot fuel st s)
    as (Hi & Hu & Hf).
  - exact Hi.
  - apply do_iov_loop_held.
  - intros Hc. destruct (Hf Hc) as (Hv & pre & e & Ht & Hp & He).
    split; [exact Hv|]. exists pre, e. repeat split; try assumption.
    rewrite Ht, no_call_or_store_app in Hu. apply andb_true_iff in Hu. tauto.
Qed.

Lemma do_iov_protocol fd u n off fn prot :
  protocol (Ret (- EFAULT)) (do_iov a K fd u n off fn prot).
Proof.
  unfold do_iov. apply prechecked_protocol, lock_protocol.
  apply (@checked_under_guard _ (Ret (- EFAULT))).
  - apply u_access_ok_validation.
  - apply do_iov_loop_under_guard.
Qed.

(** ** Every wrapper with a scoped lock *)

Lemma getcwd_tail_under_guard (fault : Z) buf len :
  under_guard fault
    (bind (call K Getcwd [buf; len])
       (fun p => if to_size_t a p >? to_size_t a (- 4096)
                 then ret (to_int p) else ret 1)).
Proof.
  apply unchecked_under_guard. intros s. unfold bind, call.
  destruct (k_op K Getcwd [buf; len] (world s)) as [p w'].
  cbn [value final trace].
  destruct (to_size_t a p >? to_size_t a (- 4096)); repeat split.
Qed.

Lemma llseek_tail_under_guard (fault : Z) fd off result whence :
  under_guard fault
    (bind (call K Lseek [fd; off; whence])
       (fun r => if r <? 0 then ret (-1)
                 else bind (store result r) (fun _ => ret 0))).
Proof.
  apply unchecked_under_guard. intros s. unfold bind, call, store, emit.
  destruct (k_op K Lseek [fd; off; whence] (world s)) as [r w'].
  cbn [value final trace].
  destruct (r <? 0); repeat split.
Qed.

Create HintDb protocol.
#[local] Hint Resolve u_strcheck_validation u_access_ok_validation
  data_ok_validation all_ok_nil_validation all_ok_cons_validation
  call_under_guard checked_under_guard getcwd_tail_under_guard
  llseek_tail_under_guard locked_protocol prechecked_protocol lift_protocol
  do_iov_protocol : protocol.

Ltac unfold_scoped :=
  unfold sc_access, sc_chdir, sc_chmod, sc_chown, sc_lchown, sc_mkdir,
    sc_mknod, sc_open, sc_pipe, sc_rename, sc_symlink, sc_unlink,
    sc_readlink, sc_readv, sc_writev, sc_preadv, sc_pwritev;
  unfold sc_faccessat, sc_fchmodat, sc_fchownat, sc_fstat, sc_fstatat,
    sc_fstatfs, sc_getcwd, sc_getdents, sc_llseek, sc_mkdirat, sc_mknodat,
    sc_mount, sc_openat, sc_pipe2, sc_renameat, sc_rmdir, sc_stat, sc_statfs,
    sc_symlinkat, sc_umount2, sc_unlinkat, sc_utimensat, sc_pread, sc_pwrite,
    sc_read, sc_readlinkat, sc_write; unfold DERR.

Lemma scoped_protocol sc :
  scoped sc = true -> protocol (Ret (- EFAULT)) (run a hdr K sc).
Proof.
  intros Hs. destruct sc; try discriminate Hs; clear Hs; cbn [run];
    unfold_scoped; cbv zeta; auto 14 with protocol.
Qed.

(** ** No transfer outside the vectored calls *)

Lemma no_transfer_app t1 t2 :
  no_transfer (t1 ++ t2) = no_transfer t1 && no_transfer t2.
Proof. apply forallb_app. Qed.

Lemma only_checks_no_transfer tr : only_checks tr = true -> no_transfer tr = true.
Proof.
  unfold only_checks, no_transfer. rewrite !forallb_forall.
  intros H e He. specialize (H e He). destruct e; try discriminate; reflexivity.
Qed.

Lemma untouched_split tr :
  untouched tr = no_call_or_store tr && no_transfer tr.
Proof.
  unfold untouched, no_call_or_store, no_transfer.
  induction tr as [|e tr IH]; [reflexivity|].
  cbn [forallb]. rewrite IH.
  destruct e; cbn [is_call_or_store is_xfer orb negb andb];
    rewrite ?andb_false_r; reflexivity.
Qed.

Lemma validation_transferless (c : M W bool) : validation c -> transferless c.
Proof. intros Hc s. apply only_checks_no_transfer, (va_only Hc). Qed.

Lemma call_transferless op args : transferless (call K op args).
Proof.
  intros s. unfold call. destruct (k_op K op args (world s)). reflexivity.
Qed.

Lemma checked_transferless (A : Type) (fault : A) (c : M W bool) (m : M W A) :
  validation c -> transferless m ->
  transferless (bind c (fun ok => if negb ok then ret fault else m)).
Proof.
  intros Hc Hm s. unfold bind. cbn [trace].
  rewrite no_transfer_app, (validation_transferless Hc s).
  destruct (value (c s)); cbn [negb]; [apply Hm | reflexivity].
Qed.

Lemma getcwd_tail_transferless buf len :
  transferless
    (bind (call K Getcwd [buf; len])
       (fun p => if to_size_t a p >? to_size_t a (- 4096)
                 then ret (to_int p) else ret 1)).
Proof.
  intros s. unfold bind, call.
  destruct (k_op K Getcwd [buf; len] (world s)) as [p w'].
  cbn [value final trace].
  destruct (to_size_t a p >? to_size_t a (- 4096)); reflexivity.
Qed.

Lemma llseek_tail_transferless fd off result whence :
  transferless
    (bind (call K Lseek [fd; off; whence])
       (fun r => if r <? 0 then ret (-1)
                 else bind (store result r) (fun _ => ret 0))).
Proof.
  intros s. unfold bind, call, store, emit.
  destruct (k_op K Lseek [fd; off; whence] (world s)) as [r w'].
  cbn [value final trace].
  destruct (r <? 0); reflexivity.
Qed.

Lemma lock_transferless (A : Type) (inj : Z -> A) (body : M W A) :
  transferless body -> transferless (interruptible_lock K inj body).
Proof.
  intros Hb s. rewrite interruptible_lock_eq. cbv zeta.
  destruct (k_lock K (world s) <? 0); cbn [trace]; [reflexivity|].
  change (EvAcquire :: ?t ++ [EvRelease]) with ([EvAcquire] ++ t ++ [EvRelease]).
  rewrite !no_transfer_app, Hb. reflexivity.
Qed.

Lemma locked_transferless (body : M W Z) :
  transferless body -> transferless (locked K body).
Proof. apply lock_transferless. Qed.

Lemma prechecked_transferless (A : Type) (b : bool) (e : A) (m : M W A) :
  transferless m -> transferless (if b then ret e else m).
Proof. intros Hm. destruct b; [intros s; reflexivity | exact Hm]. Qed.

Lemma lift_transferless (m : M W Z) : transferless m -> transferless (lift m).
Proof.
  intros Hm s. unfold lift, bind. cbn [ret value final trace].
  rewrite app_nil_r. apply Hm.
Qed.

Create HintDb transferless.
#[local] Hint Resolve call_transferless checked_transferless
  getcwd_tail_transferless llseek_tail_transferless locked_transferless
  prechecked_transferless lift_transferless : transferless.

Lemma scoped_transferless sc :
  scoped sc = true -> vectored sc = false -> transferless (run a hdr K sc).
Proof.
  intros Hs Hv.
  destruct sc; try discriminate Hs; try discriminate Hv; clear Hs Hv;
    cbn [run]; unfold_scoped; cbv zeta; auto 14 with protocol transferless.
Qed.

Lemma failed_is_check e : checks_ok [e] = false -> is_check e = true.
Proof. destruct e; cbn; intros H; try discriminate H; reflexivity. Qed.

Lemma check_no_call_or_store e : is_check e = true -> is_call_or_store e = false.
Proof. destruct e; cbn; intros H; try discriminate H; reflexivity. Qed.

(** X2: every wrapper whose guard is a scoped lock either leaves no trace at
    all (and the state as it was), or does everything -- checks, calls,
    transfers, stores -- between one acquisition of the guard and its
    release, which is the last event. *)
Theorem guard_brackets_wrapper sc s :
  scoped sc = true ->
  (trace (run a hdr K sc s) = [] /\ final (run a hdr K sc s) = s) \/
  (exists mid,
      trace (run a hdr K sc s) = EvAcquire :: mid ++ [EvRelease] /\
      inner mid = true).
Proof. intros Hs. apply (pr_bracket (scoped_protocol sc Hs)). Qed.

(** X3: in every wrapper whose guard is a scoped lock, a failed check makes
    the call return [-EFAULT]; no check before it failed, and nothing follows
    it but the release of the guard.  Before it no routine of the file
    system was called and nothing was stored; outside the four vectored
    calls nothing was transferred either, so that neither the file system
    nor user memory was reached.  (A vectored call may have transferred
    earlier batches.) *)
Theorem failed_check_ends_wrapper sc s :
  scoped sc = true ->
  checks_ok (trace (run a hdr K sc s)) = false ->
  value (run a hdr K sc s) = Ret (- EFAULT) /\
  exists pre e,
    trace (run a hdr K sc s) = EvAcquire :: pre ++ [e; EvRelease] /\
    checks_ok pre = true /\ checks_ok [e] = false /\
    no_call_or_store pre = true /\
    (vectored sc = false -> untouched pre = true).
Proof.
  intros Hs Hc.
  destruct (pr_fault (scoped_protocol sc Hs) _ Hc)
    as (Hv & pre & e & Ht & Hp & He & Hu).
  split; [exact Hv|]. exists pre, e.
  split; [exact Ht|]. split; [exact Hp|]. split; [exact He|].
  split; [exact Hu|]. intros Hvec.
  pose proof (scoped_transferless sc Hs Hvec s) as Hn.
  rewrite Ht in Hn.
  change (EvAcquire :: pre ++ [e; EvRelease])
    with ([EvAcquire] ++ pre ++ [e; EvRelease]) in Hn.
  rewrite !no_transfer_app in Hn.
  apply andb_true_iff in Hn. destruct Hn as [_ Hn].
  apply andb_true_iff in Hn. destruct Hn as [Hn _].
  rewrite untouched_split, Hu, Hn. reflexivity.
Qed.

Ltac pin_cases :=
  unfold u_access_begin, u_access_end;
  unfold bind, acquire, release, u_access_ok, call, ret; cbv zeta;
  repeat (cbn [value final trace world held negb app fst snd];
          match goal with
          | |- context [let (_, _) := ?p in _] => destruct p eqn:?
          | |- context [if negb ?b then _ else _] =>
              lazymatch b with
              | context [if _ then _ else _] => fail
              | context [let (_, _) := _ in _] => fail
              | _ => destruct b eqn:?
              end
          | |- context [if ?b then _ else _] =>
              lazymatch b with
              | context [if _ then _ else _] => fail
              | context [let (_, _) := _ in _] => fail
              | _ => destruct b eqn:?
              end
          end);
  cbn [value final trace world held negb app fst snd]; try congruence.

Lemma pinned_fault_aborts fd x arg s :
  (checks_ok (trace (sc_ioctl hdr K fd x arg s)) = false ->
   value (sc_ioctl hdr K fd x arg s) = - EFAULT /\
   untouched (trace (sc_ioctl hdr K fd x arg s)) = true) /\
  (checks_ok (trace (sc_fcntl hdr K fd x arg s)) = false ->
   value (sc_fcntl hdr K fd x arg s) = - EFAULT /\
   untouched (trace (sc_fcntl hdr K fd x arg s)) = true).
Proof.
  split; [unfold sc_ioctl; cbv zeta | unfold sc_fcntl]; pin_cases;
    intros Hc; try discriminate Hc; split; reflexivity.
Qed.

(** X4: in every wrapper of the file, the two that pin the address space by
    hand included, a failed check means that the call returns [-EFAULT] and
    that no routine of the file system was called and nothing was stored
    through a result pointer.  Outside the four vectored calls nothing was
    transferred either: neither the file system nor user memory was
    reached.  (A vectored call may have transferred earlier batches.) *)
Theorem fault_never_reaches_routine sc s :
  checks_ok (trace (run a hdr K sc s)) = false ->
  value (run a hdr K sc s) = Ret (- EFAULT) /\
  no_call_or_store (trace (run a hdr K sc s)) = true /\
  (vectored sc = false -> untouched (trace (run a hdr K sc s)) = true).
Proof.
  destruct (scoped sc) eqn:Hs.
  - intros Hc.
    destruct (pr_fault (scoped_protocol sc Hs) _ Hc)
      as (Hv & pre & e & Ht & Hp & He & Hu).
    split; [exact Hv|].
    assert (Hncs : no_call_or_store (trace (run a hdr K sc s)) = true).
    { rewrite Ht.
      change (EvAcquire :: pre ++ [e; EvRelease])
        with ([EvAcquire] ++ pre ++ [e; EvRelease]).
      rewrite !no_call_or_store_app, Hu. cbn.
      rewrite (check_no_call_or_store _ (failed_is_check _ He)). reflexivity. }
    split; [exact Hncs|]. intros Hvec.
    rewrite untouched_split, Hncs. apply (scoped_transferless sc Hs Hvec).
  - destruct sc; try discriminate Hs; cbn [run]; unfold lift, bind;
      cbn [ret value final trace]; rewrite app_nil_r; intros Hc.
    + destruct (proj2 (pinned_fault_aborts fd cmd arg s) Hc) as [-> Hu].
      split; [reflexivity|]. pose proof Hu as Hu'.
      rewrite untouched_split in Hu'. apply andb_true_iff in Hu'.
      split; [tauto | intros _; exact Hu].
    + destruct (proj1 (pinned_fault_aborts fd request argp s) Hc) as [-> Hu].
      split; [reflexivity|]. pose proof Hu as Hu'.
      rewrite untouched_split in Hu'. apply andb_true_iff in Hu'.
      split; [tauto | intros _; exact Hu].
Qed.

(** ** An interrupted acquisition *)

Lemma lock_interrupted (A : Type) (inj : Z -> A) (body : M W A) s :
  k_lock K (world s) < 0 ->
  interruptible_lock K inj body s = Out (inj (k_lock K (world s))) s [].
Proof.
  intros Hl. rewrite interruptible_lock_eq.
  replace (k_lock K (world s) <? 0) with true
    by (symmetry; apply Z.ltb_lt; exact Hl).
  reflexivity.
Qed.

Lemma pin_interrupted s :
  k_lock K (world s) < 0 ->
  u_access_begin K s = Out (k_lock K (world s)) s [].
Proof.
  intros Hl. unfold u_access_begin, acquire. cbv zeta.
  replace (k_lock K (world s) <? 0) with true
    by (symmetry; apply Z.ltb_lt; exact Hl).
  reflexivity.
Qed.

(** X1: when the acquisition of the guard is interrupted, a wrapper that
    needs the guard returns without a trace and with the state as it was: no
    check, no call, no transfer, nothing held.  It returns the interruption
    code itself, unless one of the tests on its own arguments, which come
    before the guard, has already refused the call; then it returns that
    refusal. *)
Theorem interrupted_wrapper_does_nothing sc s :
  guarded hdr sc = true ->
  k_lock K (world s) < 0 ->
  run a hdr K sc s
  = Out (Ret (match refused a hdr K sc with
              | Some e => e
              | None => k_lock K (world s)
              end)) s [].
Proof.
  intros Hg Hl.
  assert (Hlt : (k_lock K (world s) <? 0) = true) by (apply Z.ltb_lt; exact Hl).
  destruct sc; cbn [run guarded refused] in *; unfold_scoped; cbv zeta;
    unfold sc_fcntl, sc_ioctl, do_iov, locked, lift, bind; cbv zeta;
    rewrite ?Hg;
    rewrite ?pin_interrupted by exact Hl;
    cbn [ret value final trace app]; rewrite ?Hlt;
    repeat match goal with
           | |- context [if ?b then ret ?e else _] => destruct b
           end;
    rewrite ?lock_interrupted by exact Hl;
    cbn [ret value final trace app]; reflexivity.
Qed.

End WrapperProtocol.

(** * More of the transfer engine *)

Section TransferEngine.

Variable W : Type.
Variable a : arch.
Variable K : kernel W.

Implicit Types (s : kstate W) (st : iov_loop) (fn : xfer_fn W).

Ltac at_gather :=
  match goal with
  | |- context [value (gather ?a ?K ?p ?e ?i ?l ?s)] =>
      destruct (value (gather a K p e i l s)) as [?g|] eqn:?Hg
  end.

(** The trace of [do_iov] around the trace of its loop, or no trace at all
    when the count is refused or the acquisition interrupted. *)
Lemma do_iov_trace fd u n off fn prot s :
  trace (do_iov a K fd u n off fn prot s) = [] \/
  (exists ok,
      trace (do_iov a K fd u n off fn prot s)
        = [EvAcquire; EvAccessOk u (sizeof_iovec a * n) PROT_READ ok; EvRelease]) \/
  (0 <= n <= IOV_MAX /\
   trace (do_iov a K fd u n off fn prot s)
     = EvAcquire :: EvAccessOk u (sizeof_iovec a * n) PROT_READ true
       :: trace (do_iov_loop a K (iov_fuel n) fd fn prot
                   {| uiov := u; count := n; offset := off; total := 0 |}
                   {| world := world s; held := S (held s) |})
       ++ [EvRelease] /\
   value (do_iov a K fd u n off fn prot s)
     = value (do_iov_loop a K (iov_fuel n) fd fn prot
                {| uiov := u; count := n; offset := off; total := 0 |}
                {| world := world s; held := S (held s) |})).
Proof.
  destruct (Z_lt_ge_dec n 0) as [Hneg|Hpos];
    [|destruct (Z_le_gt_dec n IOV_MAX) as [Hle|Hgt]].
  - left. rewrite do_iov_bad_count by lia. reflexivity.
  - assert (Hn : 0 <= n <= IOV_MAX) by lia.
    rewrite (@do_iov_eq W a K fd u n off fn prot s Hn). cbv zeta.
    destruct (k_lock K (world s) <? 0); [left; reflexivity|].
    destruct (k_access_ok K u (sizeof_iovec a * n) PROT_READ).
    + right. right. split; [exact Hn|]. split; reflexivity.
    + right. left. eexists. reflexivity.
  - left. rewrite do_iov_bad_count by lia. reflexivity.
Qed.

Lemma xfer_offsets_app t1 t2 :
  xfer_offsets (t1 ++ t2) = xfer_offsets t1 ++ xfer_offsets t2.
Proof. apply flat_map_app. Qed.

Lemma no_xfer_offsets (tg : list event) :
  (forall e, In e tg -> is_xfer e = false) -> xfer_offsets tg = [].
Proof.
  induction tg as [|e tg IH]; intros H; [reflexivity|].
  pose proof (H e (or_introl eq_refl)) as He.
  destruct e; simpl in *; try discriminate;
    apply IH; intros; apply H; right; assumption.
Qed.

Lemma no_xfer_batches (tg : list event) :
  (forall e, In e tg -> is_xfer e = false) -> xfer_batches tg = [].
Proof.
  induction tg as [|e tg IH]; intros H; [reflexivity|].
  pose proof (H e (or_introl eq_refl)) as He.
  destruct e; simpl in *; try discriminate;
    apply IH; intros; apply H; right; assumption.
Qed.

(** ** End of data and errors of the primitive *)

Lemma after_transfer_stop st c l r :
  r <= 0 ->
  after_transfer a K st c l r
    = Break (Ret (if (r <? 0) && (total st =? 0) then r else total st)).
Proof.
  intros Hr. unfold after_transfer.
  destruct (r =? 0) eqn:H0.
  - apply Z.eqb_eq in H0. subst r. reflexivity.
  - apply Z.eqb_neq in H0.
    replace (r <? 0) with true by (symmetry; apply Z.ltb_lt; lia).
    destruct (total st =? 0); reflexivity.
Qed.

Lemma do_iov_loop_stop fd fn prot fuel : forall st s pre post fd' iov off r,
  0 <= count st < 2 ^ 31 ->
  trace (do_iov_loop a K fuel fd fn prot st s)
    = pre ++ EvXfer fd' iov off r :: post ->
  r <= 0 ->
  post = [] /\
  value (do_iov_loop a K fuel fd fn prot st s)
    = Ret (if (r <? 0) && (accumulate a (total st) (xfer_results pre) =? 0)
           then r else accumulate a (total st) (xfer_results pre)).
Proof.
  induction fuel as [|fuel IH]; intros st s pre post fd' iov off r Hc Htr Hr.
  { destruct pre; discriminate. }
  rewrite do_iov_loop_S, do_iov_body_eq in *. cbv zeta in *.
  pose proof (@gather_checks_only W a K prot
                (user_iovs a K (uiov st)
                   (Z.min (to_size_t a (count st)) batch_size)) [] 0 s) as Hck.
  revert Htr. at_gather; cbn [value final trace].
  2:{ intros Htr. exfalso.
      eapply xfer_not_among_checks; [exact Hck | | exact Htr]. reflexivity. }
  set (iov0 := non_null _) in *.
  set (r0 := fst (fn fd iov0 (offset st) (world s))) in *.
  set (tg := trace _) in *.
  destruct (after_transfer a K st _ (requested a iov0) r0) as [e|st'] eqn:Hat;
    cbn [value final trace]; intros Htr.
  - change (tg ++ [EvXfer fd iov0 (offset st) r0])
      with (tg ++ EvXfer fd iov0 (offset st) r0 :: []) in Htr.
    apply locate_xfer in Htr; [|exact Hck | reflexivity].
    destruct Htr as [(-> & Hx & ->)|(pre' & _ & Hnil)];
      [|destruct pre'; discriminate].
    inversion Hx; subst. split; [reflexivity|].
    rewrite after_transfer_stop in Hat by assumption.
    inversion Hat. rewrite (xfer_results_checks tg) by exact Hck.
    reflexivity.
  - rewrite <- app_assoc in Htr. simpl in Htr.
    apply after_transfer_continue in Hat; [|exact Hc].
    destruct Hat as (_ & Hlt & _ & Htot & Hpos & _).
    apply locate_xfer in Htr; [|exact Hck | reflexivity].
    destruct Htr as [(_ & Hx & _)|(pre' & -> & Hrest)].
    + inversion Hx; subst. lia.
    + apply IH in Hrest; [|lia | assumption].
      destruct Hrest as [-> Hval]. split; [reflexivity|].
      rewrite Hval, Htot. rewrite !xfer_results_app.
      rewrite (xfer_results_checks tg) by exact Hck. reflexivity.
Qed.

(** X5: a result [r <= 0] of the primitive ends the call: nothing follows
    it but the release of the guard.  On end of data ([r = 0]) the call
    returns the bytes transferred by the earlier batches; on an error
    ([r < 0]) it returns those bytes if there are any, the error itself
    otherwise. *)
Theorem end_of_data_or_error_ends_call fd u n off fn prot s pre post fd' iov off' r :
  trace (do_iov a K fd u n off fn prot s)
    = pre ++ EvXfer fd' iov off' r :: post ->
  r <= 0 ->
  post = [EvRelease] /\
  value (do_iov a K fd u n off fn prot s)
    = Ret (if (r <? 0) && (accumulate a 0 (xfer_results pre) =? 0)
           then r else accumulate a 0 (xfer_results pre)).
Proof.
  intros Htr Hr.
  destruct (do_iov_trace fd u n off fn prot s)
    as [Hnil|[[ok Hone]|(Hn & Hloop & Hval)]].
  - rewrite Hnil in Htr. destruct pre; discriminate.
  - rewrite Hone in Htr.
    destruct pre as [|? [|? [|? [|? ?]]]]; discriminate.
  - rewrite Hval. rewrite Hloop in Htr.
    remember (do_iov_loop a K (iov_fuel n) fd fn prot
                {| uiov := u; count := n; offset := off; total := 0 |}
                {| world := world s; held := S (held s) |}) as o eqn:Ho.
    destruct pre as [|e1 [|e2 pre]]; try discriminate.
    inversion Htr as [[He1 He2 Hrest]]. subst e1 e2.
    apply split_before_last in Hrest; [|discriminate].
    subst o. destruct Hrest as (post' & -> & Hl).
    apply do_iov_loop_stop in Hl; [| apply iov_count_small, Hn | assumption].
    destruct Hl as [-> Hv]. split; [reflexivity|].
    rewrite Hv. reflexivity.
Qed.

(** ** Offsets of the batches *)

Lemma after_transfer_continue_offset st c l r st' :
  after_transfer a K st c l r = Continue st' ->
  offset st' = advance (offset st) r.
Proof.
  unfold after_transfer, advance.
  repeat match goal with
         | |- context [if ?b then _ else _] => destruct b
         end; try discriminate;
    intros Heq; inversion Heq; reflexivity.
Qed.

Lemma do_iov_loop_offsets fd fn prot fuel : forall st s,
  xfer_offsets (trace (do_iov_loop a K fuel fd fn prot st s))
    = offsets_from (offset st)
        (xfer_results (trace (do_iov_loop a K fuel fd fn prot st s))).
Proof.
  induction fuel as [|fuel IH]; intros st s; [reflexivity|].
  rewrite do_iov_loop_S, do_iov_body_eq. cbv zeta.
  pose proof (@gather_checks_only W a K prot
                (user_iovs a K (uiov st)
                   (Z.min (to_size_t a (count st)) batch_size)) [] 0 s) as Hck.
  at_gather; cbn [value final trace].
  2:{ rewrite (no_xfer_offsets _ Hck), (xfer_results_checks _ Hck). reflexivity. }
  destruct (after_transfer a K st _ _ _) as [e|st'] eqn:Hat;
    cbn [value final trace];
    rewrite ?xfer_offsets_app, ?xfer_results_app,
      (no_xfer_offsets _ Hck), (xfer_results_checks _ Hck); cbn [app].
  - reflexivity.
  - apply after_transfer_continue_offset in Hat.
    cbn [xfer_offsets xfer_results flat_map app offsets_from].
    fold (xfer_offsets
            (trace (do_iov_loop a K fuel fd fn prot st'
                      {| world := snd (fn fd (non_null (user_iovs a K (uiov st)
                           (Z.min (to_size_t a (count st)) batch_size)))
                           (offset st) (world s)); held := held s |}))).
    rewrite IH, Hat. reflexivity.
Qed.

Lemma boundary_events (t : list event) :
  xfer_offsets (EvAcquire :: t ++ [EvRelease]) = xfer_offsets t /\
  xfer_results (EvAcquire :: t ++ [EvRelease]) = xfer_results t /\
  xfer_batches (EvAcquire :: t ++ [EvRelease]) = xfer_batches t.
Proof.
  change (EvAcquire :: t ++ [EvRelease]) with ([EvAcquire] ++ t ++ [EvRelease]).
  rewrite !xfer_offsets_app, !xfer_results_app, !xfer_batches_app.
  cbn. rewrite !app_nil_r. repeat split.
Qed.

Lemma do_iov_offsets fd u n off fn prot s :
  xfer_offsets (trace (do_iov a K fd u n off fn prot s))
    = offsets_from off (xfer_results (trace (do_iov a K fd u n off fn prot s))).
Proof.
  destruct (do_iov_trace fd u n off fn prot s)
    as [Hnil|[[ok Hone]|(Hn & Hloop & Hval)]].
  - rewrite Hnil. reflexivity.
  - rewrite Hone. reflexivity.
  - rewrite Hloop.
    change (EvAcquire :: ?x :: ?t ++ [EvRelease])
      with (EvAcquire :: (x :: t) ++ [EvRelease]).
    destruct (boundary_events
                (EvAccessOk u (sizeof_iovec a * n) PROT_READ true
                 :: trace (do_iov_loop a K (iov_fuel n) fd fn prot
                             {| uiov := u; count := n; offset := off; total := 0 |}
                             {| world := world s; held := S (held s) |})))
      as (-> & -> & _).
    apply (do_iov_loop_offsets fd fn prot (iov_fuel n)
             {| uiov := u; count := n; offset := off; total := 0 |}).
Qed.

(** X6: the offsets at which [do_iov] calls the primitive are the caller's
    offset for the first batch and, from one batch to the next, the offset
    advanced by what the primitive reported when it is non-negative, the
    same offset again when it is negative (the stream position). *)
Theorem batches_follow_offset fd u n off fn prot s :
  xfer_offsets (trace (do_iov a K fd u n off fn prot s))
    = offsets_from off (xfer_results (trace (do_iov a K fd u n off fn prot s))).
Proof. apply do_iov_offsets. Qed.

Lemma offsets_from_stream off rs :
  off < 0 -> offsets_from off rs = repeat off (length rs).
Proof.
  intros Hoff. induction rs as [|r rs IH]; [reflexivity|].
  cbn [offsets_from length repeat]. unfold advance.
  replace (0 <=? off) with false by (symmetry; apply Z.leb_gt; exact Hoff).
  rewrite IH. reflexivity.
Qed.

(** X7: [sc_readv] and [sc_writev] give every batch the offset -1: they
    never keep a position of their own, the primitive moves the cursor of
    the file. *)
Theorem stream_calls_keep_no_offset fd u n s :
  xfer_offsets (trace (sc_readv a K fd u n s))
    = repeat (-1) (length (xfer_results (trace (sc_readv a K fd u n s)))) /\
  xfer_offsets (trace (sc_writev a K fd u n s))
    = repeat (-1) (length (xfer_results (trace (sc_writev a K fd u n s)))).
Proof.
  unfold sc_readv, sc_writev.
  split; rewrite do_iov_offsets; apply offsets_from_stream; lia.
Qed.

(** ** What reaches the primitive *)

Lemma non_null_length ents : (length (non_null ents) <= length ents)%nat.
Proof. apply filter_length_le. Qed.

Lemma user_iovs_length u c : length (user_iovs a K u c) = Z.to_nat c.
Proof. unfold user_iovs. rewrite length_map, length_seq. reflexivity. Qed.

Lemma batch_fits u n :
  (length (non_null (user_iovs a K u (Z.min n batch_size))) <= 16)%nat.
Proof.
  etransitivity; [apply non_null_length|].
  rewrite user_iovs_length. unfold batch_size. lia.
Qed.

Lemma do_iov_loop_batches_prefix fd fn prot fuel : forall st s,
  0 <= count st < 2 ^ 31 ->
  (exists k, 0 <= k <= count st /\
             concat (xfer_batches (trace (do_iov_loop a K fuel fd fn prot st s)))
               = non_null (user_iovs a K (uiov st) k)) /\
  Forall (fun b => (length b <= 16)%nat)
    (xfer_batches (trace (do_iov_loop a K fuel fd fn prot st s))).
Proof.
  induction fuel as [|fuel IH]; intros st s Hc.
  { split; [exists 0; split; [lia | reflexivity] | constructor]. }
  rewrite do_iov_loop_S, do_iov_body_eq. cbv zeta.
  pose proof (@gather_checks_only W a K prot
                (user_iovs a K (uiov st)
                   (Z.min (to_size_t a (count st)) batch_size)) [] 0 s) as Hck.
  destruct (count_after_batch a Hc) as [Hmin _]. cbv zeta in Hmin.
  at_gather; cbn [value final trace].
  2:{ rewrite (no_xfer_batches _ Hck).
      split; [exists 0; split; [lia | reflexivity] | constructor]. }
  destruct (after_transfer a K st _ _ _) as [e|st'] eqn:Hat;
    cbn [value final trace];
    rewrite ?xfer_batches_app, (no_xfer_batches _ Hck); cbn [app];
    cbn [xfer_batches flat_map app concat].
  - rewrite app_nil_r. split.
    + exists (Z.min (to_size_t a (count st)) batch_size). split; [|reflexivity].
      rewrite Hmin. unfold batch_size. lia.
    + constructor; [|constructor]. rewrite Hmin. apply batch_fits.
  - apply after_transfer_continue in Hat; [|exact Hc].
    destruct Hat as (Hcnt & Hlt & Hu & _).
    match goal with
    | |- context [do_iov_loop a K fuel fd fn prot st' ?s'] =>
        destruct (IH st' s') as [(k & Hk & Hcat) Hall]; [lia|]
    end.
    fold (xfer_batches
            (trace (do_iov_loop a K fuel fd fn prot st'
                      {| world := snd (fn fd (non_null (user_iovs a K (uiov st)
                           (Z.min (to_size_t a (count st)) batch_size)))
                           (offset st) (world s)); held := held s |}))).
    split.
    + exists (Z.min (count st) batch_size + k). split; [lia|].
      rewrite Hcat, Hu, Hmin.
      rewrite (@user_iovs_split W a K (uiov st) (Z.min (count st) batch_size)
                 (Z.min (count st) batch_size + k))
        by (unfold batch_size; lia).
      rewrite non_null_app.
      replace (Z.min (count st) batch_size + k - Z.min (count st) batch_size)
        with k by lia.
      reflexivity.
    + constructor; [rewrite Hmin; apply batch_fits | exact Hall].
Qed.

(** X8: the batches handed to the primitive, put end to end, are a prefix of
    the non-null entries of the descriptor array, in order: no segment
    reaches the primitive twice or out of turn, and none is passed over but
    the null ones.  No batch has more than 16 entries, the size of the local
    array. *)
Theorem batches_are_array_in_order fd u n off fn prot s :
  (exists rest,
      non_null (user_iovs a K u n)
        = concat (xfer_batches (trace (do_iov a K fd u n off fn prot s))) ++ rest) /\
  Forall (fun b => (length b <= 16)%nat)
    (xfer_batches (trace (do_iov a K fd u n off fn prot s))).
Proof.
  destruct (do_iov_trace fd u n off fn prot s)
    as [Hnil|[[ok Hone]|(Hn & Hloop & Hval)]].
  - rewrite Hnil. split; [eexists; reflexivity | constructor].
  - rewrite Hone. split; [eexists; reflexivity | constructor].
  - rewrite Hloop.
    change (EvAcquire :: ?x :: ?t ++ [EvRelease])
      with (EvAcquire :: (x :: t) ++ [EvRelease]).
    match goal with
    | |- context [EvAcquire :: ?t ++ [EvRelease]] =>
        destruct (boundary_events t) as (_ & _ & ->)
    end.
    cbn [xfer_batches flat_map app].
    match goal with
    | |- context [trace (do_iov_loop a K ?f fd fn prot ?st0 ?s0)] =>
        fold (xfer_batches (trace (do_iov_loop a K f fd fn prot st0 s0)));
        destruct (@do_iov_loop_batches_prefix fd fn prot f st0 s0)
          as [(k & Hk & Hcat) Hall]; [apply iov_count_small, Hn|]
    end.
    cbn [count uiov] in Hk, Hcat. split; [|exact Hall].
    exists (non_null (user_iovs a K (u + k * sizeof_iovec a) (n - k))).
    rewrite Hcat, <- non_null_app, <- user_iovs_split by lia. reflexivity.
Qed.

(** ** A short transfer, the lengths adding up within [ssize_t] *)

Lemma do_iov_batch_in_array fd u n off fn prot s iov e :
  In iov (xfer_batches (trace (do_iov a K fd u n off fn prot s))) ->
  In e iov -> In e (user_iovs a K u n).
Proof.
  destruct (do_iov_trace fd u n off fn prot s)
    as [Hnil|[[ok Hone]|(Hn & Hloop & Hval)]].
  - rewrite Hnil. intros [].
  - rewrite Hone. intros [].
  - rewrite Hloop.
    change (EvAcquire :: ?x :: ?t ++ [EvRelease])
      with (EvAcquire :: (x :: t) ++ [EvRelease]).
    match goal with
    | |- context [EvAcquire :: ?t ++ [EvRelease]] =>
        destruct (boundary_events t) as (_ & _ & ->)
    end.
    cbn [xfer_batches flat_map app].
    match goal with
    | |- context [trace (do_iov_loop a K ?f fd fn prot ?st0 ?s0)] =>
        fold (xfer_batches (trace (do_iov_loop a K f fd fn prot st0 s0)));
        destruct (@do_iov_loop_batches_prefix fd fn prot f st0 s0)
          as [(k & Hk & Hcat) _]; [apply iov_count_small, Hn|]
    end.
    cbn [count uiov] in Hk, Hcat. intros Hin He.
    assert (Hc : In e (non_null (user_iovs a K u k))).
    { rewrite <- Hcat. apply in_concat. exists iov. split; assumption. }
    apply non_null_incl in Hc.
    rewrite (@user_iovs_split W a K u k n) by lia.
    apply in_or_app. left. exact Hc.
Qed.

(** X19: when the lengths of a batch add up to no more than [SSIZE_MAX], a
    positive result of the primitive below that sum is a short transfer and
    ends the call: nothing follows it but the release of the guard, no
    further batch is tried, and the call returns the running total of the
    results up to and including this one. *)
Theorem short_transfer_in_range_ends_call
    fd u n off fn prot s pre post fd' iov off' r :
  trace (do_iov a K fd u n off fn prot s)
    = pre ++ EvXfer fd' iov off' r :: post ->
  sum_len iov <= SSIZE_MAX a ->
  0 < r ->
  r < sum_len iov ->
  post = [EvRelease] /\
  value (do_iov a K fd u n off fn prot s)
    = Ret (accumulate a 0 (xfer_results (pre ++ [EvXfer fd' iov off' r]))).
Proof.
  intros Htr Hmax H0 Hr.
  apply (@short_transfer_ends_call W a K fd u n off fn prot s pre post
           fd' iov off' r Htr H0).
  rewrite requested_exact; [exact Hr | | exact Hmax].
  intros e He. apply (@user_iovs_len_nonneg W a K u n).
  apply (@do_iov_batch_in_array fd u n off fn prot s iov e); [|exact He].
  rewrite Htr, xfer_batches_app. apply in_or_app. right. left. reflexivity.
Qed.

(** ** Validated before transferred *)

Lemma gather_validated prot ents : forall iov l s e,
  value (gather a K prot ents iov l s) <> None ->
  In e (non_null ents) ->
  In (EvAccessOk (iov_base e) (iov_len e) prot true)
     (trace (gather a K prot ents iov l s)).
Proof.
  induction ents as [|x rest IH]; intros iov l s e Hv He; [destruct He|].
  cbn [gather non_null filter] in *.
  destruct (iov_base x =? 0); cbn [negb] in He; [apply IH; assumption|].
  unfold bind, u_access_ok in *. cbn [value final trace] in *.
  destruct (k_access_ok K (iov_base x) (iov_len x) prot) eqn:Hok;
    cbn [negb ret value final trace] in *; [|congruence].
  destruct He as [<-|He].
  - left. reflexivity.
  - right. apply IH; assumption.
Qed.

Lemma do_iov_loop_validated fd fn prot fuel : forall st s pre post fd' iov off r e,
  trace (do_iov_loop a K fuel fd fn prot st s)
    = pre ++ EvXfer fd' iov off r :: post ->
  In e iov ->
  In (EvAccessOk (iov_base e) (iov_len e) prot true) pre.
Proof.
  induction fuel as [|fuel IH]; intros st s pre post fd' iov off r e Htr He.
  { destruct pre; discriminate. }
  rewrite do_iov_loop_S, do_iov_body_eq in Htr. cbv zeta in Htr.
  pose proof (@gather_checks_only W a K prot
                (user_iovs a K (uiov st)
                   (Z.min (to_size_t a (count st)) batch_size)) [] 0 s) as Hck.
  pose proof (@gather_validated prot
                (user_iovs a K (uiov st)
                   (Z.min (to_size_t a (count st)) batch_size)) [] 0 s) as Hval.
  revert Htr. at_gather; cbn [value final trace].
  2:{ intros Htr. exfalso.
      eapply xfer_not_among_checks; [exact Hck | | exact Htr]. reflexivity. }
  assert (Hsome : Some g <> None) by discriminate.
  destruct (after_transfer a K st _ _ _) as [x|st'] eqn:Hat;
    cbn [value final trace]; intros Htr.
  - match type of Htr with
    | ?tg ++ [?x0] = _ => change (tg ++ [x0]) with (tg ++ x0 :: []) in Htr
    end.
    apply locate_xfer in Htr; [|exact Hck | reflexivity].
    destruct Htr as [(-> & Hx & _)|(pre' & _ & Hnil)];
      [|destruct pre'; discriminate].
    inversion Hx; subst. apply Hval; assumption.
  - rewrite <- app_assoc in Htr. cbn [app] in Htr.
    apply locate_xfer in Htr; [|exact Hck | reflexivity].
    destruct Htr as [(-> & Hx & _)|(pre' & -> & Hrest)].
    + inversion Hx; subst. apply Hval; assumption.
    + apply in_or_app. right. right. eapply IH; eassumption.
Qed.

(** X9: every segment handed to the primitive has passed [u_access_ok], with
    its own length and the permission of the call, before the primitive is
    called with it. *)
Theorem segments_validated_before_transfer
    fd u n off fn prot s pre post fd' iov off' r e :
  trace (do_iov a K fd u n off fn prot s)
    = pre ++ EvXfer fd' iov off' r :: post ->
  In e iov ->
  In (EvAccessOk (iov_base e) (iov_len e) prot true) pre.
Proof.
  intros Htr He.
  destruct (do_iov_trace fd u n off fn prot s)
    as [Hnil|[[ok Hone]|(Hn & Hloop & Hval)]].
  - rewrite Hnil in Htr. destruct pre; discriminate.
  - rewrite Hone in Htr.
    destruct pre as [|? [|? [|? [|? ?]]]]; discriminate.
  - rewrite Hloop in Htr.
    remember (do_iov_loop a K (iov_fuel n) fd fn prot
                {| uiov := u; count := n; offset := off; total := 0 |}
                {| world := world s; held := S (held s) |}) as o eqn:Ho.
    destruct pre as [|e1 [|e2 pre]]; try discriminate.
    inversion Htr as [[He1 He2 Hrest]]. subst e1 e2.
    apply split_before_last in Hrest; [|discriminate].
    subst o. destruct Hrest as (post' & _ & Hl).
    right. right. eapply do_iov_loop_validated; eassumption.
Qed.

(** ** A first batch of null entries *)

Lemma gather_all_null prot ents : forall iov l s,
  (forall e, In e ents -> iov_base e = 0) ->
  gather a K prot ents iov l s = Out (Some (iov, l)) s [].
Proof.
  induction ents as [|x rest IH]; intros iov l s Hnull; [reflexivity|].
  cbn [gather]. rewrite (Hnull x (or_introl eq_refl)). cbn.
  apply IH. intros e He. apply Hnull. right. exact He.
Qed.

Lemma non_null_all_null ents :
  (forall e, In e ents -> iov_base e = 0) -> non_null ents = [].
Proof.
  induction ents as [|x rest IH]; intros Hnull; [reflexivity|].
  unfold non_null. cbn [filter]. rewrite (Hnull x (or_introl eq_refl)). cbn.
  apply IH. intros e He. apply Hnull. right. exact He.
Qed.

(** X10: when the first batch -- the first [min(n, 16)] descriptors -- holds
    null pointers only, the first thing the call does after checking the
    array is to call the primitive with an empty batch, at the caller's
    offset.  If the primitive reports [r <= 0] for it, that is all the call
    does: it returns [r], and the descriptors beyond the first batch are
    neither validated nor transferred. *)
Theorem empty_first_batch_ends_call fd u n off fn prot s r w' :
  0 <= n <= IOV_MAX ->
  0 <= k_lock K (world s) ->
  k_access_ok K u (sizeof_iovec a * n) PROT_READ = true ->
  (forall e, In e (user_iovs a K u (Z.min n batch_size)) -> iov_base e = 0) ->
  fn fd [] off (world s) = (r, w') ->
  (exists rest,
      trace (do_iov a K fd u n off fn prot s)
      = EvAcquire :: EvAccessOk u (sizeof_iovec a * n) PROT_READ true
        :: EvXfer fd [] off r :: rest) /\
  (r <= 0 ->
   do_iov a K fd u n off fn prot s =
   Out (Ret r) {| world := w'; held := held s |}
       [EvAcquire; EvAccessOk u (sizeof_iovec a * n) PROT_READ true;
        EvXfer fd [] off r; EvRelease]).
Proof.
  intros Hn Hl Hok Hnull Hfn.
  rewrite (@do_iov_eq W a K fd u n off fn prot s Hn). cbv zeta.
  rewrite Hok.
  replace (k_lock K (world s) <? 0) with false
    by (symmetry; apply Z.ltb_ge; exact Hl).
  unfold iov_fuel. rewrite do_iov_loop_S, do_iov_body_eq. cbv zeta.
  cbn [count uiov offset total world held].
  destruct (count_after_batch a (iov_count_small Hn)) as [Hmin _].
  cbv zeta in Hmin. rewrite Hmin.
  rewrite (gather_all_null prot _ _ _ _ Hnull), (non_null_all_null _ Hnull).
  rewrite Hfn. cbn [value final trace fst snd app].
  change (requested a []) with 0.
  split.
  - destruct (after_transfer a K
                {| uiov := u; count := n; offset := off; total := 0 |}
                (Z.min n batch_size) 0 r);
      cbn [value final trace app]; eexists; reflexivity.
  - intros Hr.
    rewrite after_transfer_nothing_asked by (cbn [total]; lia || reflexivity).
    reflexivity.
Qed.

(** ** A transfer in full *)









End TransferEngine.

(** * More of the single wrappers *)

(** ** Offsets passed as two words *)

Lemma high_word_low_bits (h n : Z) :
  0 <= n < 32 -> Z.testbit (h * 2 ^ 32) n = false.
Proof. intros Hn. apply Z.mul_pow2_bits_low. lia. Qed.

Lemma high_word_is_shift (off0 : Z) :
  - 2 ^ 31 <= off0 < 2 ^ 31 ->
  to_off_t (Z.shiftl off0 32) = off0 * 2 ^ 32.
Proof.
  intros H0. rewrite Z.shiftl_mul_pow2 by lia.
  unfold to_off_t. apply to_signed_id; lia.
Qed.

Lemma low_word_high_bits (off1 n : Z) :
  0 <= off1 < 2 ^ 32 -> 32 <= n -> Z.testbit off1 n = false.
Proof.
  intros H1 Hn. destruct (Z.eq_dec off1 0) as [->|Hne];
    [apply Z.bits_0|].
  apply Z.bits_above_log2; [lia|].
  assert (Z.log2 off1 < 32) by (apply Z.log2_lt_pow2; lia). lia.
Qed.

Lemma negative_word_high_bits (off1 n : Z) :
  - 2 ^ 32 <= off1 < 0 -> 32 <= n -> Z.testbit off1 n = true.
Proof.
  intros H1 Hn. apply Z.bits_above_log2_neg; [lia|].
  destruct (Z.eq_dec (Z.pred (- off1)) 0) as [->|Hne];
    [simpl; lia|].
  assert (Z.log2 (Z.pred (- off1)) < 32) by (apply Z.log2_lt_pow2; lia). lia.
Qed.

(** X12: [(off_t)off0 << 32 | off1] puts the two words together as intended
    when the low word, a [long], is not negative: the result is
    [off0 * 2^32 + off1]. *)
Theorem offset_halves_reassembled (off0 off1 : Z) :
  - 2 ^ 31 <= off0 < 2 ^ 31 ->
  0 <= off1 < 2 ^ 31 ->
  off_t_of_halves off0 off1 = off0 * 2 ^ 32 + off1.
Proof.
  intros H0 H1. unfold off_t_of_halves. rewrite high_word_is_shift by exact H0.
  assert (Hland : Z.land (off0 * 2 ^ 32) off1 = 0).
  { apply Z.bits_inj'. intros n Hn. rewrite Z.land_spec, Z.bits_0.
    destruct (Z_lt_ge_dec n 32).
    - rewrite high_word_low_bits by lia. reflexivity.
    - rewrite (@low_word_high_bits off1 n) by lia. apply andb_false_r. }
  rewrite <- (Z.lxor_lor _ _ Hland). symmetry.
  apply Z.add_nocarry_lxor, Hland.
Qed.

Lemma negative_low_word_wins (off0 off1 : Z) :
  - 2 ^ 31 <= off0 < 2 ^ 31 ->
  - 2 ^ 31 <= off1 < 0 ->
  off_t_of_halves off0 off1 = off1.
Proof.
  intros H0 H1. unfold off_t_of_halves. rewrite high_word_is_shift by exact H0.
  apply Z.bits_inj'. intros n Hn. rewrite Z.lor_spec.
  destruct (Z_lt_ge_dec n 32).
  - rewrite high_word_low_bits by lia. reflexivity.
  - rewrite (@negative_word_high_bits off1 n) by lia. apply orb_true_r.
Qed.

Section SingleWrappers.

Variable W : Type.
Variable a : arch.
Variable hdr : headers.
Variable K : kernel W.

(** X13: when the low word has its top bit set -- a negative [long] -- the
    sign extension of [off1] swallows the high word: the offset comes out
    as [off1] itself, negative.  On a 32-bit build [sc_preadv] and
    [sc_pwritev] therefore refuse every such offset with [-EINVAL], without
    taking the guard. *)
Theorem negative_low_word_is_einval fd iov n off1 off0 s :
  - 2 ^ 31 <= off0 < 2 ^ 31 ->
  - 2 ^ 31 <= off1 < 0 ->
  off_t_of_halves off0 off1 = off1 /\
  sc_preadv ILP32 K fd iov n off1 off0 s = Out (Ret (- EINVAL)) s [] /\
  sc_pwritev ILP32 K fd iov n off1 off0 s = Out (Ret (- EINVAL)) s [].
Proof.
  intros H0 H1. pose proof (negative_low_word_wins H0 H1) as Hoff.
  split; [exact Hoff|].
  unfold sc_preadv, sc_pwritev, vec_offset. cbv zeta. rewrite Hoff.
  replace (off1 <? 0) with true by (symmetry; apply Z.ltb_lt; lia).
  split; reflexivity.
Qed.

(** ** File-system statistics *)

(** X14: [sc_fstatfs] and [sc_statfs] refuse a buffer size other than
    [sizeof(struct statfs)] with [-EINVAL] before the guard is taken and
    before the path or the buffer is looked at. *)
Theorem statfs_size_mismatch_is_einval fd path bufsiz stf s :
  bufsiz <> sizeof_statfs hdr ->
  sc_fstatfs hdr K fd bufsiz stf s = Out (- EINVAL) s [] /\
  sc_statfs hdr K path bufsiz stf s = Out (- EINVAL) s [].
Proof.
  intros Hne. unfold sc_fstatfs, sc_statfs.
  replace (bufsiz =? sizeof_statfs hdr) with false
    by (symmetry; apply Z.eqb_neq; exact Hne).
  split; reflexivity.
Qed.

(** ** The current directory *)

(** An error pointer, one of the last 4095 addresses, read as an [int]. *)
Lemma error_pointer_is_errno (p : Z) :
  to_size_t a p > to_size_t a (- 4096) -> - 4096 < to_int p < 0.
Proof.
  unfold to_size_t, to_int, to_unsigned, to_signed.
  destruct a; cbn [word_bits];
    change (2 ^ 32) with 4294967296; change (2 ^ (32 - 1)) with 2147483648;
    change (2 ^ 64) with 18446744073709551616;
    intros H; Z.div_mod_to_equations; lia.
Qed.

Lemma error_pointer_value (p : Z) :
  2 ^ word_bits a - 4096 < to_size_t a p ->
  to_int p = to_size_t a p - 2 ^ word_bits a.
Proof.
  unfold to_size_t, to_int, to_unsigned, to_signed.
  destruct a; cbn [word_bits];
    change (2 ^ 32) with 4294967296; change (2 ^ (32 - 1)) with 2147483648;
    change (2 ^ 64) with 18446744073709551616;
    intros H; Z.div_mod_to_equations; lia.
Qed.

Lemma last_page_start : to_size_t a (- 4096) = 2 ^ word_bits a - 4096.
Proof. destruct a; reflexivity. Qed.

(** X15: what [sc_getcwd] returns, case by case.  When the guard cannot be
    taken it returns the interruption code and does nothing.  When the
    buffer fails validation it returns [-EFAULT] and [getcwd] is not called.
    Otherwise [getcwd] is called once, and its pointer is never handed back:
    a pointer into the last 4095 addresses, which encodes an error, comes
    back as that error code, a number from -4095 to -1; any other pointer
    comes back as 1. *)
Theorem getcwd_returns_status buf len s :
  (k_lock K (world s) < 0 ->
   sc_getcwd a K buf len s = Out (k_lock K (world s)) s []) /\
  (0 <= k_lock K (world s) ->
   k_access_ok K buf len PROT_WRITE = false ->
   sc_getcwd a K buf len s
   = Out (- EFAULT) {| world := world s; held := held s |}
       [EvAcquire; EvAccessOk buf len PROT_WRITE false; EvRelease]) /\
  (forall p w',
      0 <= k_lock K (world s) ->
      k_access_ok K buf len PROT_WRITE = true ->
      k_op K Getcwd [buf; len] (world s) = (p, w') ->
      final (sc_getcwd a K buf len s) = {| world := w'; held := held s |} /\
      trace (sc_getcwd a K buf len s)
      = [EvAcquire; EvAccessOk buf len PROT_WRITE true;
         EvCall Getcwd [buf; len] p; EvRelease] /\
      (to_size_t a p <= 2 ^ word_bits a - 4096 ->
       value (sc_getcwd a K buf len s) = 1) /\
      (2 ^ word_bits a - 4096 < to_size_t a p ->
       value (sc_getcwd a K buf len s) = to_size_t a p - 2 ^ word_bits a /\
       - 4096 < value (sc_getcwd a K buf len s) < 0)).
Proof.
  unfold sc_getcwd, locked. rewrite interruptible_lock_eq. cbv zeta.
  split; [|split].
  - intros Hl.
    replace (k_lock K (world s) <? 0) with true
      by (symmetry; apply Z.ltb_lt; exact Hl).
    reflexivity.
  - intros Hl Hok.
    replace (k_lock K (world s) <? 0) with false
      by (symmetry; apply Z.ltb_ge; exact Hl).
    unfold bind, u_access_ok. cbn [value final trace world].
    rewrite Hok. reflexivity.
  - intros p w' Hl Hok Hop.
    replace (k_lock K (world s) <? 0) with false
      by (symmetry; apply Z.ltb_ge; exact Hl).
    unfold bind, u_access_ok, call. cbn [value final trace world].
    rewrite Hok. cbn [negb value final trace world held].
    rewrite Hop. cbn [value final trace world held].
    rewrite last_page_start.
    destruct (to_size_t a p >? 2 ^ word_bits a - 4096) eqn:Hp;
      cbn [ret value final trace world held app Nat.pred].
    + apply Z.gtb_gt in Hp.
      split; [reflexivity|]. split; [reflexivity|]. split; [lia|].
      intros _. split; [apply error_pointer_value; lia|].
      apply error_pointer_is_errno. rewrite last_page_start. lia.
    + assert (Hle : to_size_t a p <= 2 ^ word_bits a - 4096).
      { destruct (Z.gtb_spec (to_size_t a p) (2 ^ word_bits a - 4096));
          [discriminate Hp | assumption]. }
      split; [reflexivity|]. split; [reflexivity|].
      split; [reflexivity | lia].
Qed.

(** ** Seeking *)

(** X16: [sc_llseek] stores to user memory only through [result], only an
    offset that [lseek] has just returned and that is not negative, and it
    then returns 0; when [lseek] fails nothing is stored. *)
Theorem llseek_stores_only_result fd off0 off1 result whence s p v :
  In (EvStore p v) (trace (sc_llseek K fd off0 off1 result whence s)) ->
  p = result /\ 0 <= v /\
  In (EvCall Lseek [fd; off_t_of_halves off0 off1; whence] v)
     (trace (sc_llseek K fd off0 off1 result whence s)) /\
  value (sc_llseek K fd off0 off1 result whence s) = 0.
Proof.
  unfold sc_llseek, locked. rewrite interruptible_lock_eq.
  destruct (k_lock K (world s) <? 0); cbv zeta; cbn [value trace];
    [intros []|].
  unfold bind, u_access_ok, call, store, emit. cbn [value final trace world].
  destruct (k_access_ok K result sizeof_off_t PROT_WRITE);
    cbn [negb ret value final trace].
  - change (world {| world := world s; held := S (held s) |}) with (world s).
    destruct (k_op K Lseek [fd; off_t_of_halves off0 off1; whence] (world s))
      as [r w'].
    cbn [value final trace].
    destruct (r <? 0) eqn:Hr; cbn [ret value final trace app];
      intros Hin; cbn [In app] in Hin;
      repeat (destruct Hin as [Hin|Hin]; [try discriminate Hin|]);
      try contradiction.
    inversion Hin; subst. apply Z.ltb_ge in Hr.
    split; [reflexivity|]. split; [exact Hr|]. split; [|reflexivity].
    right. right. left. reflexivity.
  - intros Hin; cbn [In app] in Hin;
      repeat (destruct Hin as [Hin|Hin]; [try discriminate Hin|]);
      contradiction.
Qed.

(** ** Opaque payloads *)

(** X17: a request whose direction is neither [_IOC_READ] nor [_IOC_WRITE]
    -- no direction, or both at once -- goes from [sc_ioctl] straight to
    [ioctl]: the address space is not pinned, [argp] is not validated, and
    the driver's answer is returned. *)
Theorem ioctl_other_directions_unchecked fd request argp s :
  _IOC_DIR hdr request <> _IOC_READ hdr ->
  _IOC_DIR hdr request <> _IOC_WRITE hdr ->
  sc_ioctl hdr K fd request argp s = call K Ioctl [fd; request; argp] s /\
  trace (sc_ioctl hdr K fd request argp s)
    = [EvCall Ioctl [fd; request; argp]
         (value (sc_ioctl hdr K fd request argp s))] /\
  held (final (sc_ioctl hdr K fd request argp s)) = held s.
Proof.
  intros Hr Hw. unfold sc_ioctl. cbv zeta.
  replace (_IOC_DIR hdr request =? _IOC_READ hdr) with false
    by (symmetry; apply Z.eqb_neq; exact Hr).
  replace (_IOC_DIR hdr request =? _IOC_WRITE hdr) with false
    by (symmetry; apply Z.eqb_neq; exact Hw).
  cbn [orb]. unfold call.
  destruct (k_op K Ioctl [fd; request; argp] (world s)) as [r w'].
  repeat split.
Qed.

Ltac pinned_cases :=
  unfold u_access_begin, u_access_end;
  unfold bind, acquire, release, u_access_ok, call, ret; cbv zeta;
  repeat (cbn [value final trace world held negb app fst snd];
          match goal with
          | |- context [let (_, _) := ?p in _] => destruct p eqn:?
          | |- context [if negb ?b then _ else _] =>
              lazymatch b with
              | context [if _ then _ else _] => fail
              | context [let (_, _) := _ in _] => fail
              | _ => destruct b eqn:?
              end
          | |- context [if ?b then _ else _] =>
              lazymatch b with
              | context [if _ then _ else _] => fail
              | context [let (_, _) := _ in _] => fail
              | _ => destruct b eqn:?
              end
          end);
  cbn [value final trace world held negb app fst snd]; try congruence.

(** X18: [sc_fcntl] leaves the guard as it found it on every path on which
    no check fails: for the record-lock commands the pin taken before
    [fcntl] is released after it (or was never granted), and the other
    commands take none. *)
Theorem fcntl_unpins_when_valid fd cmd arg s :
  checks_ok (trace (sc_fcntl hdr K fd cmd arg s)) = true ->
  held (final (sc_fcntl hdr K fd cmd arg s)) = held s.
Proof.
  unfold sc_fcntl. pinned_cases; intros Hc; try discriminate Hc; reflexivity.
Qed.

End SingleWrappers.

(** * The further properties at work *)

Lemma interrupted_wrapper_does_nothing_witness :
  guarded demo_hdr (SC_chdir 4000) = true /\
  k_lock interrupted (world (start [7])) < 0 /\
  run ILP32 demo_hdr interrupted (SC_chdir 4000) (start [7])
    = Out (Ret (- EINTR)) (start [7]) [].
Proof.
  assert (H1 : guarded demo_hdr (SC_chdir 4000) = true) by reflexivity.
  assert (H2 : k_lock interrupted (world (start [7])) < 0)
    by (vm_compute; reflexivity).
  exact (conj H1 (conj H2
           (@interrupted_wrapper_does_nothing script ILP32 demo_hdr interrupted
              (SC_chdir 4000) (start [7]) H1 H2))).
Defined.

Lemma guard_brackets_wrapper_witness :
  scoped (SC_readv 3 1000 20) = true /\
  ((trace (run ILP32 demo_hdr plain20 (SC_readv 3 1000 20) (start [16; 2])) = [] /\
    final (run ILP32 demo_hdr plain20 (SC_readv 3 1000 20) (start [16; 2]))
      = start [16; 2]) \/
   (exists mid,
       trace (run ILP32 demo_hdr plain20 (SC_readv 3 1000 20) (start [16; 2]))
         = EvAcquire :: mid ++ [EvRelease] /\
       inner mid = true)).
Proof.
  assert (H : scoped (SC_readv 3 1000 20) = true) by reflexivity.
  exact (conj H
           (@guard_brackets_wrapper script ILP32 demo_hdr plain20
              (SC_readv 3 1000 20) (start [16; 2]) H)).
Defined.

Lemma failed_check_ends_wrapper_witness :
  scoped (SC_pread 3 666 10 0) = true /\
  checks_ok (trace pread_fault) = false /\
  value pread_fault = Ret (- EFAULT) /\
  exists pre e,
    trace pread_fault = EvAcquire :: pre ++ [e; EvRelease] /\
    checks_ok pre = true /\ checks_ok [e] = false /\
    no_call_or_store pre = true /\
    (vectored (SC_pread 3 666 10 0) = false -> untouched pre = true).
Proof.
  assert (H1 : scoped (SC_pread 3 666 10 0) = true) by reflexivity.
  assert (H2 : checks_ok (trace pread_fault) = false)
    by (vm_compute; reflexivity).
  exact (conj H1 (conj H2
           (@failed_check_ends_wrapper script ILP32 demo_hdr faulty17
              (SC_pread 3 666 10 0) (start [7]) H1 H2))).
Defined.

Lemma fault_never_reaches_routine_witness :
  checks_ok (trace fcntl_fault) = false /\
  value fcntl_fault = Ret (- EFAULT) /\
  untouched (trace fcntl_fault) = true.
Proof.
  assert (H : checks_ok (trace fcntl_fault) = false)
    by (vm_compute; reflexivity).
  pose proof (@fault_never_reaches_routine script ILP32 demo_hdr faulty17
                (SC_fcntl 3 (F_GETLK demo_hdr) 666) (start [5]) H)
    as (Hv & _ & Hu).
  exact (conj H (conj Hv (Hu eq_refl))).
Defined.

Lemma end_of_data_or_error_ends_call_witness :
  trace error_in_second_batch
    = firstn 23 (trace error_in_second_batch)
      ++ EvXfer 3 four_segments (-1) (- EBADF) :: [EvRelease] /\
  - EBADF <= 0 /\
  value error_in_second_batch = Ret 16.
Proof.
  assert (H1 : trace error_in_second_batch
               = firstn 23 (trace error_in_second_batch)
                 ++ EvXfer 3 four_segments (-1) (- EBADF) :: [EvRelease])
    by (vm_compute; reflexivity).
  assert (H2 : - EBADF <= 0) by (unfold EBADF; lia).
  exact (conj H1 (conj H2
           (proj2 (@end_of_data_or_error_ends_call script ILP32 plain20 3 1000
                     20 (-1) (k_preadv plain20) PROT_WRITE
                     (start [16; - EBADF])
                     (firstn 23 (trace error_in_second_batch)) [EvRelease] 3
                     four_segments (-1) (- EBADF) H1 H2)))).
Defined.

Lemma segments_validated_before_transfer_witness :
  trace scenario_A
    = firstn 23 (trace scenario_A)
      ++ EvXfer 3 four_segments (-1) 2 :: [EvRelease] /\
  In (mem20 0) four_segments /\
  In (EvAccessOk (iov_base (mem20 0)) (iov_len (mem20 0)) PROT_WRITE true)
     (firstn 23 (trace scenario_A)).
Proof.
  assert (H1 : trace scenario_A
               = firstn 23 (trace scenario_A)
                 ++ EvXfer 3 four_segments (-1) 2 :: [EvRelease])
    by (vm_compute; reflexivity).
  assert (H2 : In (mem20 0) four_segments) by (left; reflexivity).
  exact (conj H1 (conj H2
           (@segments_validated_before_transfer script ILP32 plain20 3 1000 20
              (-1) (k_preadv plain20) PROT_WRITE (start [16; 2])
              (firstn 23 (trace scenario_A)) [EvRelease] 3 four_segments
              (-1) 2 (mem20 0) H1 H2))).
Defined.

Lemma empty_first_batch_ends_call_witness :
  0 <= 17 <= IOV_MAX /\
  0 <= k_lock null16 (world (start [])) /\
  k_access_ok null16 1000 (sizeof_iovec ILP32 * 17) PROT_READ = true /\
  (forall e, In e (user_iovs ILP32 null16 1000 (Z.min 17 batch_size)) ->
             iov_base e = 0) /\
  k_preadv null16 3 [] (-1) (world (start [])) = (0, []) /\
  iov_base (read_iovec ILP32 null16 (1000 + 16 * sizeof_iovec ILP32)) = 666 /\
  do_iov ILP32 null16 3 1000 17 (-1) (k_preadv null16) PROT_WRITE (start [])
  = Out (Ret 0) {| world := []; held := held (start []) |}
      [EvAcquire; EvAccessOk 1000 (sizeof_iovec ILP32 * 17) PROT_READ true;
       EvXfer 3 [] (-1) 0; EvRelease].
Proof.
  assert (H1 : 0 <= 17 <= IOV_MAX) by (unfold IOV_MAX; lia).
  assert (H2 : 0 <= k_lock null16 (world (start []))) by (simpl; lia).
  assert (H3 : k_access_ok null16 1000 (sizeof_iovec ILP32 * 17) PROT_READ
               = true) by reflexivity.
  assert (H4 : forall e,
             In e (user_iovs ILP32 null16 1000 (Z.min 17 batch_size)) ->
             iov_base e = 0).
  { intros e He. vm_compute in He.
    repeat (destruct He as [<-|He]; [reflexivity|]). contradiction. }
  assert (H5 : k_preadv null16 3 [] (-1) (world (start [])) = (0, []))
    by reflexivity.
  assert (H6 : iov_base (read_iovec ILP32 null16 (1000 + 16 * sizeof_iovec ILP32))
               = 666) by reflexivity.
  assert (H7 : 0 <= 0) by lia.
  exact (conj H1 (conj H2 (conj H3 (conj H4 (conj H5 (conj H6
           (proj2 (@empty_first_batch_ends_call script ILP32 null16 3 1000 17
                     (-1) (k_preadv null16) PROT_WRITE (start []) 0 []
                     H1 H2 H3 H4 H5) H7))))))).
Defined.


Lemma offset_halves_reassembled_witness :
  - 2 ^ 31 <= 1 < 2 ^ 31 /\
  0 <= 5 < 2 ^ 31 /\
  off_t_of_halves 1 5 = 1 * 2 ^ 32 + 5.
Proof.
  assert (H1 : - 2 ^ 31 <= 1 < 2 ^ 31) by lia.
  assert (H2 : 0 <= 5 < 2 ^ 31) by lia.
  exact (conj H1 (conj H2 (@offset_halves_reassembled 1 5 H1 H2))).
Defined.

Lemma negative_low_word_is_einval_witness :
  - 2 ^ 31 <= 1 < 2 ^ 31 /\
  - 2 ^ 31 <= -1 < 0 /\
  off_t_of_halves 1 (-1) = -1 /\
  sc_preadv ILP32 plain20 3 1000 20 (-1) 1 (start [])
    = Out (Ret (- EINVAL)) (start []) [].
Proof.
  assert (H1 : - 2 ^ 31 <= 1 < 2 ^ 31) by lia.
  assert (H2 : - 2 ^ 31 <= -1 < 0) by lia.
  pose proof (@negative_low_word_is_einval script plain20 3 1000 20 (-1) 1
                (start []) H1 H2) as (Ha & Hb & _).
  exact (conj H1 (conj H2 (conj Ha Hb))).
Defined.

Lemma statfs_size_mismatch_is_einval_witness :
  0 <> sizeof_statfs demo_hdr /\
  sc_fstatfs demo_hdr plain20 3 0 4000 (start []) = Out (- EINVAL) (start []) [].
Proof.
  assert (H : 0 <> sizeof_statfs demo_hdr) by discriminate.
  exact (conj H
           (proj1 (@statfs_size_mismatch_is_einval script demo_hdr plain20 3
                     4100 0 4000 (start []) H))).
Defined.

Lemma llseek_stores_only_result_witness :
  In (EvStore 4000 100)
     (trace (sc_llseek plain20 3 0 0 4000 0 (start [100]))) /\
  4000 = 4000 /\ 0 <= 100 /\
  value (sc_llseek plain20 3 0 0 4000 0 (start [100])) = 0.
Proof.
  assert (H : In (EvStore 4000 100)
                (trace (sc_llseek plain20 3 0 0 4000 0 (start [100]))))
    by (vm_compute; tauto).
  pose proof (@llseek_stores_only_result script plain20 3 0 0 4000 0
                (start [100]) 4000 100 H) as (Ha & Hb & _ & Hd).
  exact (conj H (conj Ha (conj Hb Hd))).
Defined.

Lemma ioctl_other_directions_unchecked_witness :
  _IOC_DIR demo_hdr 0 <> _IOC_READ demo_hdr /\
  _IOC_DIR demo_hdr 0 <> _IOC_WRITE demo_hdr /\
  held (final (sc_ioctl demo_hdr plain20 3 0 77 (start [5]))) = held (start [5]).
Proof.
  assert (H1 : _IOC_DIR demo_hdr 0 <> _IOC_READ demo_hdr) by discriminate.
  assert (H2 : _IOC_DIR demo_hdr 0 <> _IOC_WRITE demo_hdr) by discriminate.
  exact (conj H1 (conj H2
           (proj2 (proj2 (@ioctl_other_directions_unchecked script demo_hdr
                            plain20 3 0 77 (start [5]) H1 H2))))).
Defined.

Lemma getcwd_returns_status_witness :
  (k_lock interrupted (world (start [])) < 0 /\
   sc_getcwd ILP32 interrupted 4000 64 (start [])
   = Out (- EINTR) (start []) []) /\
  (0 <= k_lock plain20 (world (start [-2])) /\
   k_access_ok plain20 4000 64 PROT_WRITE = true /\
   k_op plain20 Getcwd [4000; 64] (world (start [-2])) = (-2, []) /\
   2 ^ word_bits ILP32 - 4096 < to_size_t ILP32 (-2) /\
   value getcwd_error = -2).
Proof.
  assert (H1 : k_lock interrupted (world (start [])) < 0)
    by (vm_compute; reflexivity).
  assert (H2 : 0 <= k_lock plain20 (world (start [-2]))) by (simpl; lia).
  assert (H3 : k_access_ok plain20 4000 64 PROT_WRITE = true) by reflexivity.
  assert (H4 : k_op plain20 Getcwd [4000; 64] (world (start [-2])) = (-2, []))
    by reflexivity.
  assert (H5 : 2 ^ word_bits ILP32 - 4096 < to_size_t ILP32 (-2))
    by (vm_compute; reflexivity).
  pose proof (proj1 (@getcwd_returns_status script ILP32 interrupted 4000 64
                       (start [])) H1) as Ha.
  pose proof (proj1 (proj2 (proj2 (proj2
                (proj2 (proj2 (@getcwd_returns_status script ILP32 plain20
                                 4000 64 (start [-2])))
                   (-2) [] H2 H3 H4))) H5)) as Hb.
  exact (conj (conj H1 Ha) (conj H2 (conj H3 (conj H4 (conj H5 Hb))))).
Defined.

Lemma short_transfer_in_range_ends_call_witness :
  trace scenario_A
    = firstn 23 (trace scenario_A)
      ++ EvXfer 3 four_segments (-1) 2 :: [EvRelease] /\
  sum_len four_segments <= SSIZE_MAX ILP32 /\
  0 < 2 /\
  2 < sum_len four_segments /\
  xfer_results (trace scenario_A) = [16; 2] /\
  value scenario_A = Ret 18.
Proof.
  assert (H1 : trace scenario_A
               = firstn 23 (trace scenario_A)
                 ++ EvXfer 3 four_segments (-1) 2 :: [EvRelease])
    by (vm_compute; reflexivity).
  assert (H2 : sum_len four_segments <= SSIZE_MAX ILP32)
    by (vm_compute; discriminate).
  assert (H3 : 0 < 2) by lia.
  assert (H4 : 2 < sum_len four_segments) by (vm_compute; reflexivity).
  assert (H5 : xfer_results (trace scenario_A) = [16; 2])
    by (vm_compute; reflexivity).
  exact (conj H1 (conj H2 (conj H3 (conj H4 (conj H5
           (proj2 (@short_transfer_in_range_ends_call script ILP32 plain20 3
                     1000 20 (-1) (k_preadv plain20) PROT_WRITE
                     (start [16; 2])
                     (firstn 23 (trace scenario_A)) [EvRelease] 3
                     four_segments (-1) 2 H1 H2 H3 H4))))))).
Defined.

Lemma fcntl_unpins_when_valid_witness :
  checks_ok (trace fcntl_good_arg) = true /\
  held (final fcntl_good_arg) = held (start [5]).
Proof.
  assert (H : checks_ok (trace fcntl_good_arg) = true) by reflexivity.
  exact (conj H
           (@fcntl_unpins_when_valid script demo_hdr plain20 3
              (F_GETLK demo_hdr) 4000 (start [5]) H)).
Defined.
